(** * The radio protocol bridge of OpenHamClock (rig-listener/rig-listener.js)

    A shallow embedding of the rig listener: the three vendor codecs
    (Yaesu CAT, Kenwood/Elecraft CAT, Icom CI-V), the radio state store with
    its change notification, the serial transport event handlers with the
    reconnect timer, and the HTTP command handlers.

    Conventions of the embedding.
    - A JavaScript number is an integer of [Z].  Every value the codecs
      compute on a well-formed frame is below 2^53, where the arithmetic of
      doubles is exact.  NaN, the result of [parseInt] on a string without
      digits, is [None].
    - A text chunk is a [string] whose characters are code units below 256
      (CAT traffic is ASCII); a [Buffer] is a [list Z] of bytes.
    - A loop whose trip count is not known beforehand carries a fuel
      argument; the lemmas [extract_fuel] and [parse_loop_fuel] show that the
      fuel handed over by the callers is never used up.
    - Global mutable objects ([state], [sseClients], [serialPort],
      [pollTimer], the codec buffers) are threaded explicitly. *)

From Stdlib Require Import ZArith String Ascii Bool List Lia Arith.
Import ListNotations.

Local Open Scope string_scope.
Local Open Scope list_scope.
Local Open Scope Z_scope.

(** ** The fragment of the JavaScript runtime the program relies on *)

(** [String.prototype.indexOf] with a one-character needle; [None] is -1. *)
Fixpoint indexOf (c : ascii) (s : string) : option nat :=
  match s with
  | EmptyString => None
  | String a s' => if Ascii.eqb a c then Some O else option_map S (indexOf c s')
  end.

Fixpoint sdrop (n : nat) (s : string) : string :=
  match n, s with
  | O, _ => s
  | S _, EmptyString => EmptyString
  | S n', String _ s' => sdrop n' s'
  end.

Fixpoint stake (n : nat) (s : string) : string :=
  match n, s with
  | O, _ => EmptyString
  | S _, EmptyString => EmptyString
  | S n', String a s' => String a (stake n' s')
  end.

(** [s.substring(a, b)]: both indices are clamped to the length and swapped
    when they come in the wrong order. *)
Definition substring (s : string) (a b : nat) : string :=
  let len := String.length s in
  let a := Nat.min a len in
  let b := Nat.min b len in
  stake (Nat.max a b - Nat.min a b) (sdrop (Nat.min a b) s).

(** [s.substring(a)] *)
Definition substring_from (s : string) (a : nat) : string :=
  substring s a (String.length s).

Definition startsWith (s p : string) : bool := String.prefix p s.

(** [s.charAt(i)]: the empty string when [i] is out of range. *)
Definition charAt (s : string) (i : nat) : string :=
  match String.get i s with
  | Some c => String c EmptyString
  | None => EmptyString
  end.

Fixpoint string_repeat (c : ascii) (n : nat) : string :=
  match n with
  | O => EmptyString
  | S n' => String c (string_repeat c n')
  end.

(** [s.padStart(n, c)] with a one-character filler. *)
Definition padStart (s : string) (n : nat) (c : ascii) : string :=
  (string_repeat c (n - String.length s) ++ s)%string.

Definition code (c : ascii) : Z := Z.of_nat (nat_of_ascii c).

(** The character of a digit below 36, lower case as [toString] prints it. *)
Definition digit_char (d : Z) : ascii :=
  if d <? 10 then ascii_of_nat (Z.to_nat (48 + d))
  else ascii_of_nat (Z.to_nat (87 + d)).

Fixpoint digits_loop (fuel : nat) (radix n : Z) (acc : string) : string :=
  match fuel with
  | O => acc
  | S k =>
      let acc' := String (digit_char (n mod radix)) acc in
      if n <? radix then acc' else digits_loop k radix (n / radix) acc'
  end.

Definition digits (radix n : Z) : string :=
  digits_loop (S (Z.to_nat (Z.log2 n))) radix n EmptyString.

(** [n.toString(radix)] on an integer (below 1e21 for radix 10, where the
    runtime still prints plain digits). *)
Definition toString (radix n : Z) : string :=
  if n <? 0 then String "-"%char (digits radix (- n)) else digits radix n.

(** [String(n)] *)
Definition String_ (n : Z) : string := toString 10 n.

(** White space that [parseInt] skips, among the code units below 256. *)
Definition is_whitespace (c : ascii) : bool :=
  let n := code c in
  ((9 <=? n) && (n <=? 13)) || (n =? 32) || (n =? 160).

Fixpoint skip_whitespace (s : string) : string :=
  match s with
  | String c s' => if is_whitespace c then skip_whitespace s' else s
  | EmptyString => s
  end.

Definition digit_value (radix : Z) (c : ascii) : option Z :=
  let n := code c in
  let v :=
    if (48 <=? n) && (n <=? 57) then Some (n - 48)
    else if (97 <=? n) && (n <=? 122) then Some (n - 87)
    else if (65 <=? n) && (n <=? 90) then Some (n - 55)
    else None in
  match v with
  | Some d => if d <? radix then Some d else None
  | None => None
  end.

(** The longest prefix of digits, read most significant digit first; [acc]
    is [None] until the first digit is seen. *)
Fixpoint parse_digits (radix : Z) (s : string) (acc : option Z) : option Z :=
  match s with
  | EmptyString => acc
  | String c s' =>
      match digit_value radix c with
      | Some d =>
          parse_digits radix s'
            (Some (match acc with Some a => a * radix + d | None => d end))
      | None => acc
      end
  end.

(** [parseInt(s)] without a radix argument: leading white space, an optional
    sign, an optional [0x] prefix that selects radix 16, then digits.
    [None] is NaN. *)
Definition parseInt (s : string) : option Z :=
  let s := skip_whitespace s in
  let '(sign, s) :=
    match s with
    | String "-"%char s' => (-1, s')
    | String "+"%char s' => (1, s')
    | _ => (1, s)
    end in
  let '(radix, s) :=
    match s with
    | String "0"%char (String "x"%char s') => (16, s')
    | String "0"%char (String "X"%char s') => (16, s')
    | _ => (10, s)
    end in
  option_map (Z.mul sign) (parse_digits radix s None).

(** [a || b] on strings, [a] possibly undefined. *)
Definition or_else (a : option string) (b : string) : string :=
  match a with
  | Some EmptyString => b
  | Some m => m
  | None => b
  end.

Fixpoint lookup {K V : Type} (eqb : K -> K -> bool) (k : K)
    (table : list (K * V)) : option V :=
  match table with
  | [] => None
  | (k', v) :: rest => if eqb k' k then Some v else lookup eqb k rest
  end.

(** *** Buffers *)

(** [buf[i] = v] on a [Buffer]: the value is stored modulo 256; a store out
    of range is ignored. *)
Fixpoint buf_set (i : nat) (v : Z) (buf : list Z) : list Z :=
  match buf, i with
  | [], _ => []
  | _ :: t, O => (v mod 256) :: t
  | h :: t, S i' => h :: buf_set i' v t
  end.

(** [Buffer.from(array)] *)
Definition Buffer_from (l : list Z) : list Z := map (fun v => v mod 256) l.

(** [Buffer.from(s, 'binary')] *)
Definition Buffer_from_binary (s : string) : list Z :=
  map code (list_ascii_of_string s).

Fixpoint starts_with (pat buf : list Z) : bool :=
  match pat, buf with
  | [], _ => true
  | _ :: _, [] => false
  | p :: pat', b :: buf' => (p =? b) && starts_with pat' buf'
  end.

(** [buf.indexOf(pattern)] with a [Buffer] pattern that is not empty. *)
Fixpoint buf_indexOf_seq (pat buf : list Z) : option nat :=
  if starts_with pat buf then Some O
  else match buf with
       | [] => None
       | _ :: buf' => option_map S (buf_indexOf_seq pat buf')
       end.

Fixpoint find_byte (b : Z) (buf : list Z) : option nat :=
  match buf with
  | [] => None
  | x :: buf' => if x =? b then Some O else option_map S (find_byte b buf')
  end.

(** [buf.indexOf(byte, offset)] *)
Definition buf_indexOf (b : Z) (offset : nat) (buf : list Z) : option nat :=
  option_map (Nat.add offset) (find_byte b (skipn offset buf)).

(** [buf.subarray(a, b)] with [a <= b] *)
Definition subarray (buf : list Z) (a b : nat) : list Z :=
  firstn (b - a) (skipn a buf).

(** [buf.subarray(a)] *)
Definition subarray_from (buf : list Z) (a : nat) : list Z := skipn a buf.

(** ** The radio state store (lines 61-85) *)

(** The values the program stores in [state] and sends to its clients. *)
Inductive value : Type :=
  | VNum (n : Z)
  | VStr (s : string)
  | VBool (b : bool).

(** [a === b] *)
Definition strict_eq (a b : value) : bool :=
  match a, b with
  | VNum x, VNum y => x =? y
  | VStr x, VStr y => String.eqb x y
  | VBool x, VBool y => Bool.eqb x y
  | _, _ => false
  end.

(** The keys of [state]. *)
Inductive prop : Type :=
  | Pfreq | Pmode | Pwidth | Pptt | Pconnected | PlastUpdate.

Record RadioState : Type := mkState {
  freq : value;
  mode : value;
  width : value;
  ptt : value;
  connected : value;
  lastUpdate : value
}.

Definition initial_state : RadioState :=
  mkState (VNum 0) (VStr "") (VNum 0) (VBool false) (VBool false) (VNum 0).

(** [state[p]] *)
Definition get (p : prop) (st : RadioState) : value :=
  match p with
  | Pfreq => freq st
  | Pmode => mode st
  | Pwidth => width st
  | Pptt => ptt st
  | Pconnected => connected st
  | PlastUpdate => lastUpdate st
  end.

(** [state[p] = v] *)
Definition set (p : prop) (v : value) (st : RadioState) : RadioState :=
  match p with
  | Pfreq => mkState v (mode st) (width st) (ptt st) (connected st) (lastUpdate st)
  | Pmode => mkState (freq st) v (width st) (ptt st) (connected st) (lastUpdate st)
  | Pwidth => mkState (freq st) (mode st) v (ptt st) (connected st) (lastUpdate st)
  | Pptt => mkState (freq st) (mode st) (width st) v (connected st) (lastUpdate st)
  | Pconnected => mkState (freq st) (mode st) (width st) (ptt st) v (lastUpdate st)
  | PlastUpdate => mkState (freq st) (mode st) (width st) (ptt st) (connected st) v
  end.

(** What travels on the push stream: the [init] snapshot and the [update]
    deltas, before [JSON.stringify]. *)
Inductive message : Type :=
  | Init (connected freq mode width ptt : value)
  | Update (p : prop) (v : value).

(** A push-stream response.  [writable] tells whether [c.write] returns
    rather than throws; [received] is what has been written to it so far. *)
Record client : Type := mkClient {
  cid : nat;
  writable : bool;
  received : list message
}.

Definition write_to (data : message) (c : client) : client :=
  mkClient (cid c) (writable c) (received c ++ [data]).

(** [broadcast(data)]: every client is written to once; a client whose
    write throws is dropped from [sseClients]. *)
Definition broadcast (data : message) (sseClients : list client) : list client :=
  map (write_to data) (filter writable sseClients).

(** The store together with its subscribers and the wall clock that
    [Date.now()] reads. *)
Record World : Type := mkWorld {
  state : RadioState;
  sseClients : list client;
  now : Z
}.

Definition updateState (p : prop) (v : value) (w : World) : World :=
  if strict_eq (get p (state w)) v then w
  else
    mkWorld (set PlastUpdate (VNum (now w)) (set p v (state w)))
            (broadcast (Update p v) (sseClients w))
            (now w).

(** The calls of [updateState] a decoder makes, in order: the decoded
    reports of a chunk. *)
Definition report : Type := (prop * value)%type.

Definition record_report (p : prop) (v : value) (log : list report) : list report :=
  log ++ [(p, v)].

(** ** Splitting a text buffer into commands (lines 108-114, 172-178) *)

(** The [while] loop shared by both text dialects: cut the buffer after each
    [;] and keep what follows the last one. *)
Fixpoint extract (fuel : nat) (buffer : string) (commands : list string)
    : list string * string :=
  match fuel with
  | O => (commands, buffer)
  | S k =>
      match indexOf ";"%char buffer with
      | Some idx =>
          extract k (substring_from buffer (idx + 1))
                  (commands ++ [substring buffer 0 (idx + 1)])
      | None => (commands, buffer)
      end
  end.

Definition len (s : string) : nat := String.length s.

(** ** Yaesu CAT (lines 91-150) *)

Module YaesuProtocol.

Definition YAESU_MODES : list (string * string) :=
  [("1", "LSB"); ("2", "USB"); ("3", "CW"); ("4", "FM"); ("5", "AM");
   ("6", "RTTY-LSB"); ("7", "CW-R"); ("8", "DATA-LSB"); ("9", "RTTY-USB");
   ("A", "DATA-FM"); ("B", "FM-N"); ("C", "DATA-USB"); ("D", "AM-N")].

Definition buildPollCommands : list string := ["FA;"; "MD0;"; "TX;"].

Section Decode.
Context {St : Type} (updateState : prop -> value -> St -> St).

(** The body of the [for (const cmd of commands)] loop. *)
Definition handle (s : St) (cmd : string) : St :=
  if startsWith cmd "FA" && (11 <=? len cmd)%nat then
    match parseInt (substring cmd 2 (len cmd - 1)) with
    | Some freq => if 0 <? freq then updateState Pfreq (VNum freq) s else s
    | None => s
    end
  else if startsWith cmd "MD0" && (4 <=? len cmd)%nat then
    let code := charAt cmd 3 in
    let mode := or_else (lookup String.eqb code YAESU_MODES) code in
    updateState Pmode (VStr mode) s
  else if startsWith cmd "TX" && (3 <=? len cmd)%nat then
    let txState := charAt cmd 2 in
    updateState Pptt (VBool (negb (String.eqb txState "0"))) s
  else if startsWith cmd "IF" && (27 <=? len cmd)%nat then
    let s :=
      match parseInt (substring cmd 5 14) with
      | Some freq => if 0 <? freq then updateState Pfreq (VNum freq) s else s
      | None => s
      end in
    let modeCode := charAt cmd 21 in
    let mode := or_else (lookup String.eqb modeCode YAESU_MODES) modeCode in
    if String.eqb mode "" then s else updateState Pmode (VStr mode) s
  else s.

(** [parseResponse(chunk)], with [this.buffer] passed in and out. *)
Definition parseResponse (chunk : string) (buffer : string) (s : St)
    : string * St :=
  let buffer := (buffer ++ chunk)%string in
  let '(commands, buffer) := extract (S (len buffer)) buffer [] in
  (buffer, fold_left handle commands s).
End Decode.

Definition setFreqCmd (hz : Z) : string :=
  ("FA" ++ padStart (String_ hz) 9 "0"%char ++ ";")%string.

Definition setPttCmd (on : bool) : string := if on then "TX1;" else "TX0;".

End YaesuProtocol.

(** ** Kenwood / Elecraft CAT (lines 156-214) *)

Module KenwoodProtocol.

Definition KENWOOD_MODES : list (string * string) :=
  [("1", "LSB"); ("2", "USB"); ("3", "CW"); ("4", "FM"); ("5", "AM");
   ("6", "FSK"); ("7", "CW-R"); ("9", "FSK-R")].

Definition buildPollCommands : list string := ["FA;"; "MD;"; "TX;"].

Section Decode.
Context {St : Type} (updateState : prop -> value -> St -> St).

Definition handle (s : St) (cmd : string) : St :=
  if startsWith cmd "FA" && (13 <=? len cmd)%nat then
    match parseInt (substring cmd 2 (len cmd - 1)) with
    | Some freq => if 0 <? freq then updateState Pfreq (VNum freq) s else s
    | None => s
    end
  else if startsWith cmd "MD" && (3 <=? len cmd)%nat then
    let code := charAt cmd 2 in
    let mode := or_else (lookup String.eqb code KENWOOD_MODES) code in
    updateState Pmode (VStr mode) s
  else if startsWith cmd "TX" && (3 <=? len cmd)%nat then
    let txState := charAt cmd 2 in
    updateState Pptt (VBool (negb (String.eqb txState "0"))) s
  else if startsWith cmd "IF" && (37 <=? len cmd)%nat then
    let s :=
      match parseInt (substring cmd 2 13) with
      | Some freq => if 0 <? freq then updateState Pfreq (VNum freq) s else s
      | None => s
      end in
    let modeCode := charAt cmd 29 in
    let mode := or_else (lookup String.eqb modeCode KENWOOD_MODES) modeCode in
    if String.eqb mode "" then s else updateState Pmode (VStr mode) s
  else s.

Definition parseResponse (chunk : string) (buffer : string) (s : St)
    : string * St :=
  let buffer := (buffer ++ chunk)%string in
  let '(commands, buffer) := extract (S (len buffer)) buffer [] in
  (buffer, fold_left handle commands s).
End Decode.

Definition setFreqCmd (hz : Z) : string :=
  ("FA" ++ padStart (String_ hz) 11 "0"%char ++ ";")%string.

Definition setPttCmd (on : bool) : string := if on then "TX1;" else "RX;".

End KenwoodProtocol.

(** ** Icom CI-V (lines 220-346) *)

Module IcomProtocol.

Definition ICOM_MODES : list (Z * string) :=
  [(0, "LSB"); (1, "USB"); (2, "AM"); (3, "CW"); (4, "RTTY");
   (5, "FM"); (6, "WFM"); (7, "CW-R"); (8, "RTTY-R"); (23, "DV")].

Definition controllerAddr : Z := 224.

(** [_frame(payload)]; [civAddr] is set from the configuration. *)
Definition _frame (civAddr : Z) (payload : list Z) : list Z :=
  Buffer_from ([254; 254; civAddr; controllerAddr] ++ payload ++ [253]).

Definition buildPollCommands (civAddr : Z) : list (list Z) :=
  [_frame civAddr [3]; _frame civAddr [4]; _frame civAddr [28; 0]].

(** The [for] loop of [_bcdToFreq]: [n] iterations are left, [i] is the
    loop index. *)
Fixpoint bcd_loop (n i : nat) (data : list Z) (freq mult : Z) : Z :=
  match n with
  | O => freq
  | S n' =>
      let freq := freq + Z.land (nth i data 0) 15 * mult in
      let mult := mult * 10 in
      let freq := freq + Z.land (Z.shiftr (nth i data 0) 4) 15 * mult in
      let mult := mult * 10 in
      bcd_loop n' (S i) data freq mult
  end.

Definition _bcdToFreq (data : list Z) : Z :=
  bcd_loop (Nat.min (List.length data) 5) 0 data 0 1.

(** The [for] loop of [_freqToBcd].  [%] keeps the sign of the dividend
    ([Z.rem]); [Math.floor(f / 10)] is [Z.div]. *)
Fixpoint freq_loop (n i : nat) (buf : list Z) (f : Z) : list Z :=
  match n with
  | O => buf
  | S n' =>
      let lo := Z.rem f 10 in
      let f := f / 10 in
      let hi := Z.rem f 10 in
      let f := f / 10 in
      freq_loop n' (S i) (buf_set i (Z.lor (Z.shiftl hi 4) lo) buf) f
  end.

Definition _freqToBcd (hz : Z) : list Z := freq_loop 5 0 (repeat 0 5) hz.

(** A received chunk is a [Buffer], or a string that is converted first. *)
Inductive chunk : Type :=
  | Bytes (b : list Z)
  | Text (s : string).

Definition chunk_bytes (c : chunk) : list Z :=
  match c with
  | Bytes b => b
  | Text s => Buffer_from_binary s
  end.

Section Decode.
Context {St : Type} (updateState : prop -> value -> St -> St).

(** Lines 274-304: what one iteration does with the frame it has cut
    out.  A [continue] leaves the store as it is. *)
Definition handle (frame : list Z) (s : St) : St :=
  if (List.length frame <? 6)%nat then s
  else
    let to := nth 2 frame 0 in
    if negb (to =? controllerAddr) then s
    else
      let cmd := nth 4 frame 0 in
      let data := subarray frame 5 (List.length frame - 1) in
      if (cmd =? 3) || (cmd =? 0) then
        if (5 <=? List.length data)%nat then
          let freq := _bcdToFreq data in
          if 0 <? freq then updateState Pfreq (VNum freq) s else s
        else s
      else if (cmd =? 4) || (cmd =? 1) then
        if (1 <=? List.length data)%nat then
          let mode :=
            or_else (lookup Z.eqb (nth 0 data 0) ICOM_MODES)
                    ("MODE_" ++ toString 16 (nth 0 data 0))%string in
          updateState Pmode (VStr mode) s
        else s
      else if cmd =? 28 then
        if (2 <=? List.length data)%nat && (nth 0 data 0 =? 0) then
          updateState Pptt (VBool (nth 1 data 0 =? 1)) s
        else s
      else s.

(** Lines 258-305: the [while (true)] loop. *)
Fixpoint parse_loop (fuel : nat) (buffer : list Z) (s : St)
    : list Z * St :=
  match fuel with
  | O => (buffer, s)
  | S k =>
      match buf_indexOf_seq [254; 254] buffer with
      | None => ([], s)
      | Some start =>
          match buf_indexOf 253 (start + 2) buffer with
          | None => (subarray_from buffer start, s)
          | Some endIdx =>
              let frame := subarray buffer start (endIdx + 1) in
              let buffer := subarray_from buffer (endIdx + 1) in
              parse_loop k buffer (handle frame s)
          end
      end
  end.

Definition parseResponse (c : chunk) (buffer : list Z) (s : St)
    : list Z * St :=
  let buffer := buffer ++ chunk_bytes c in
  parse_loop (S (List.length buffer)) buffer s.
End Decode.

Definition setFreqCmd (civAddr hz : Z) : list Z :=
  _frame civAddr (5 :: _freqToBcd hz).

Definition setPttCmd (civAddr : Z) (on : bool) : list Z :=
  _frame civAddr [28; 0; if on then 1 else 0].

End IcomProtocol.

(** ** The codec objects behind the global [protocol] *)

(** What goes to [serialPort.write]: a string for the text dialects, a
    [Buffer] for CI-V. *)
Inductive frame : Type :=
  | TextFrame (s : string)
  | BinaryFrame (b : list Z).

(** The test [if (cmd)]: [null] and the empty string are falsy. *)
Definition frame_truthy (cmd : option frame) : bool :=
  match cmd with
  | Some (TextFrame EmptyString) => false
  | Some _ => true
  | None => false
  end.

Record Protocol : Type := mkProtocol {
  buildPollCommands : list frame;
  setFreqCmd : Z -> option frame;
  setPttCmd : bool -> option frame
}.

Definition YaesuObject : Protocol :=
  mkProtocol (map TextFrame YaesuProtocol.buildPollCommands)
             (fun hz => Some (TextFrame (YaesuProtocol.setFreqCmd hz)))
             (fun on => Some (TextFrame (YaesuProtocol.setPttCmd on))).

Definition KenwoodObject : Protocol :=
  mkProtocol (map TextFrame KenwoodProtocol.buildPollCommands)
             (fun hz => Some (TextFrame (KenwoodProtocol.setFreqCmd hz)))
             (fun on => Some (TextFrame (KenwoodProtocol.setPttCmd on))).

Definition IcomObject (civAddr : Z) : Protocol :=
  mkProtocol (map BinaryFrame (IcomProtocol.buildPollCommands civAddr))
             (fun hz => Some (BinaryFrame (IcomProtocol.setFreqCmd civAddr hz)))
             (fun on => Some (BinaryFrame (IcomProtocol.setPttCmd civAddr on))).

(** Lines 351-357: the simulation codec encodes nothing. *)
Definition MockProtocol : Protocol :=
  mkProtocol [] (fun _ => None) (fun _ => None).

(** ** The serial engine (lines 362-498) *)

Inductive Brand : Type := yaesu | kenwood | elecraft | icom | mock.

(** The part of the configuration the bridge reads after start-up. *)
Record Config : Type := mkConfig {
  brand : Brand;
  civAddress : Z;
  pollInterval : Z;
  pttEnabled : bool
}.

(** The serial port object: whether the library reports it open, and the
    frames handed to [write] so far. *)
Record SerialPort : Type := mkPort {
  isOpen : bool;
  written : list frame
}.

(** What [setTimeout] can be asked to run. *)
Inductive callback : Type := Reconnect.

Record Bridge : Type := mkBridge {
  world : World;
  config : Config;
  protocol : Protocol;
  serialPort : option SerialPort;
  pollTimer : option Z;               (* the running [setInterval], with its period *)
  timeouts : list (Z * callback)      (* pending [setTimeout] calls: delay, callback *)
}.

Definition with_world (w : World) (b : Bridge) : Bridge :=
  mkBridge w (config b) (protocol b) (serialPort b) (pollTimer b) (timeouts b).

Definition with_port (p : option SerialPort) (b : Bridge) : Bridge :=
  mkBridge (world b) (config b) (protocol b) p (pollTimer b) (timeouts b).

Definition with_pollTimer (t : option Z) (b : Bridge) : Bridge :=
  mkBridge (world b) (config b) (protocol b) (serialPort b) t (timeouts b).

Definition with_timeouts (ts : list (Z * callback)) (b : Bridge) : Bridge :=
  mkBridge (world b) (config b) (protocol b) (serialPort b) (pollTimer b) ts.

(** [setTimeout(cb, delay)] *)
Definition setTimeout (cb : callback) (delay : Z) (b : Bridge) : Bridge :=
  with_timeouts (timeouts b ++ [(delay, cb)]) b.

(** [state.connected = v; broadcast({type:'update', prop:'connected', value:v})]:
    the assignment bypasses [updateState]. *)
Definition mark_connected (v : bool) (w : World) : World :=
  mkWorld (set Pconnected (VBool v) (state w))
          (broadcast (Update Pconnected (VBool v)) (sseClients w))
          (now w).

(** [serialPort.write(data)] *)
Definition port_write (data : frame) (p : SerialPort) : SerialPort :=
  mkPort (isOpen p) (written p ++ [data]).

Definition set_open (o : bool) (p : SerialPort) : SerialPort :=
  mkPort o (written p).

(** Lines 371-389: the codec chosen for a brand. *)
Definition select_protocol (cfg : Config) : Protocol :=
  match brand cfg with
  | yaesu => YaesuObject
  | kenwood | elecraft => KenwoodObject
  | icom => IcomObject (if civAddress cfg =? 0 then 148 else civAddress cfg)
  | mock => MockProtocol
  end.

(** [initSerial(cfg)] up to the call of [serialPort.open]: a fresh port that
    is not open yet.  The simulation brand seeds the store and opens
    nothing. *)
Definition initSerial (cfg : Config) (b : Bridge) : Bridge :=
  let b := mkBridge (world b) cfg (select_protocol cfg) (serialPort b)
                    (pollTimer b) (timeouts b) in
  match brand cfg with
  | mock =>
      let w := world b in
      let st := set Pmode (VStr "USB")
                  (set Pfreq (VNum 14074000)
                     (set Pconnected (VBool true) (state w))) in
      with_world (mkWorld st (sseClients w) (now w)) b
  | _ => with_port (Some (mkPort false [])) b
  end.

(** The handler of ['open'] (lines 420-438); the library has marked the port
    open before it runs it. *)
Definition on_open (b : Bridge) : Bridge :=
  let b := with_port (option_map (set_open true) (serialPort b)) b in
  let b := with_world (mark_connected true (world b)) b in
  let interval :=
    if pollInterval (config b) =? 0 then 500 else pollInterval (config b) in
  with_pollTimer (Some interval) b.

(** One tick of the poll timer (lines 427-437). *)
Definition poll_tick (b : Bridge) : Bridge :=
  match serialPort b with
  | Some p =>
      if isOpen p then
        with_port (Some (fold_left (fun p cmd => port_write cmd p)
                                   (buildPollCommands (protocol b)) p)) b
      else b
  | None => b
  end.

(** The handler of ['error'] (lines 449-453). *)
Definition on_error (b : Bridge) : Bridge :=
  with_world (mark_connected false (world b)) b.

(** The handler of ['close'] (lines 455-461); the library has marked the
    port closed before it runs it. *)
Definition on_close (b : Bridge) : Bridge :=
  let b := with_port (option_map (set_open false) (serialPort b)) b in
  let b := with_world (mark_connected false (world b)) b in
  let b := with_pollTimer None b in
  setTimeout Reconnect 5000 b.

(** The callback of [serialPort.open] when it reports an error
    (lines 464-477). *)
Definition on_open_failed (b : Bridge) : Bridge :=
  setTimeout Reconnect 5000 b.

(** [reconnect(cfg)] (lines 480-487) *)
Definition reconnect (b : Bridge) : Bridge :=
  let b := with_port None b in
  initSerial (config b) b.

(** The oldest pending timeout falls due. *)
Definition fire_timeout (b : Bridge) : Bridge :=
  match timeouts b with
  | (_, Reconnect) :: rest => reconnect (with_timeouts rest b)
  | [] => b
  end.

(** What the port and the timers can do to the bridge. *)
Inductive serial_event : Type :=
  | Opened | OpenFailed | Errored | Closed | TimeoutDue | PollTick.

Definition step (b : Bridge) (e : serial_event) : Bridge :=
  match e with
  | Opened => on_open b
  | OpenFailed => on_open_failed b
  | Errored => on_error b
  | Closed => on_close b
  | TimeoutDue => fire_timeout b
  | PollTick => poll_tick b
  end.

Definition run (b : Bridge) (es : list serial_event) : Bridge :=
  fold_left step es b.

(** One reconnect attempt: the timeout falls due, the port is opened anew,
    and the attempt either fails at once or succeeds and the port is lost
    again later. *)
Definition attempt (succeeds : bool) : list serial_event :=
  if succeeds then [TimeoutDue; Opened; Closed] else [TimeoutDue; OpenFailed].

(** [sendToRadio(data)] (lines 489-498).  A [write] that throws is caught
    there; the frame still counts as handed to the port. *)
Definition sendToRadio (data : frame) (b : Bridge) : Bridge * bool :=
  match serialPort b with
  | Some p =>
      if isOpen p then (with_port (Some (port_write data p)) b, true)
      else (b, false)
  | None => (b, false)
  end.

(** ** The HTTP command handlers (lines 560-618) *)

(** A parsed request body, or any other JavaScript value met on the way. *)
#[warnings="-register-all"]
Inductive jsval : Type :=
  | JUndefined
  | JNull
  | JBool (b : bool)
  | JNum (n : Z)
  | JStr (s : string)
  | JArr (items : list jsval)
  | JObj (fields : list (string * jsval)).

(** [!!v] *)
Definition truthy (v : jsval) : bool :=
  match v with
  | JUndefined | JNull => false
  | JBool b => b
  | JNum n => negb (n =? 0)
  | JStr s => negb (String.eqb s "")
  | JArr _ | JObj _ => true
  end.

(** [v?.k] for the keys the handlers read ([freq], [ptt]): only an object
    can carry them. *)
Definition member (v : jsval) (k : string) : jsval :=
  match v with
  | JObj fields =>
      match lookup String.eqb k fields with
      | Some x => x
      | None => JUndefined
      end
  | _ => JUndefined
  end.

Record Response : Type := mkResponse {
  status : Z;
  body : jsval
}.

Definition success : Response :=
  mkResponse 200 (JObj [("success", JBool true)]).

Definition error (code : Z) (msg : string) : Response :=
  mkResponse code (JObj [("error", JStr msg)]).

(** GET /stream (lines 534-558): the new client is sent the [init] snapshot
    and joins [sseClients].  [ok] tells whether later writes to it will
    succeed. *)
Definition get_stream (id : nat) (ok : bool) (w : World) : World :=
  let st := state w in
  let init := Init (connected st) (freq st) (mode st) (width st) (ptt st) in
  mkWorld st (sseClients w ++ [mkClient id ok [init]]) (now w).

(** [if (cmd) sendToRadio(cmd)] *)
Definition send_if_truthy (cmd : option frame) (b : Bridge) : Bridge :=
  match cmd with
  | Some data => if frame_truthy cmd then fst (sendToRadio data b) else b
  | None => b
  end.

Section Server.
(** [Math.round] applied to a request value that is not a number already:
    the coercion of the runtime, taken as given. *)
Variable ToInteger : jsval -> Z.

(** POST /freq (lines 561-577); [parseBody] hands over the parsed body, or
    [null] when it does not parse. *)
Definition post_freq (body : jsval) (b : Bridge) : Bridge * Response :=
  if negb (truthy body) || negb (truthy (member body "freq")) then
    (b, error 400 "Missing freq")
  else
    let cmd := setFreqCmd (protocol b) (ToInteger (member body "freq")) in
    (send_if_truthy cmd b, success).
End Server.

(** POST /ptt (lines 601-617) *)
Definition post_ptt (body : jsval) (b : Bridge) : Bridge * Response :=
  if negb (pttEnabled (config b)) && truthy (member body "ptt") then
    (b, error 403 "PTT disabled in configuration")
  else
    let cmd := setPttCmd (protocol b) (truthy (member body "ptt")) in
    (send_if_truthy cmd b, success).

(** ** Mode labels and the set-mode commands
       (lines 96-98, 141-145, 160-162, 205-209, 225-227, 337-341) *)

(** The code units of a string. *)
Definition units (s : string) : list Z := map code (list_ascii_of_string s).

Fixpoint units_eqb (a b : list Z) : bool :=
  match a, b with
  | [], [] => true
  | x :: a', y :: b' => (x =? y) && units_eqb a' b'
  | _, _ => false
  end.

(** The upper case of one code unit below 256: the letters [a-z] and the
    Latin-1 letters move down by 32, the sharp s becomes [SS], the micro
    sign and the y with diaeresis leave the Latin-1 range
    (U+039C, U+0178); everything else stays. *)
Definition upper_unit (c : Z) : list Z :=
  if (97 <=? c) && (c <=? 122) then [c - 32]
  else if c =? 181 then [924]
  else if c =? 223 then [83; 83]
  else if ((224 <=? c) && (c <=? 246)) || ((248 <=? c) && (c <=? 254))
       then [c - 32]
  else if c =? 255 then [376]
  else [c].

(** [s.toUpperCase()], as code units. *)
Definition toUpperCase (s : string) : list Z := flat_map upper_unit (units s).

(** What every plain object inherits from [Object.prototype]. *)
Definition Object_prototype_members : list string :=
  ["constructor"; "__defineGetter__"; "__defineSetter__"; "hasOwnProperty";
   "__lookupGetter__"; "__lookupSetter__"; "isPrototypeOf";
   "propertyIsEnumerable"; "toString"; "valueOf"; "__proto__";
   "toLocaleString"].

(** The outcome of [object[key]] on an object made by [Object.fromEntries]:
    an own property (of the last entry with that key), a member of
    [Object.prototype], or [undefined]. *)
Inductive property (V : Type) : Type :=
  | Own (v : V)
  | Inherited (member : string)
  | Missing.
Arguments Own {V} v.
Arguments Inherited {V} member.
Arguments Missing {V}.

Definition read {V : Type} (entries : list (string * V)) (key : list Z)
    : property V :=
  match find (fun kv => units_eqb (units (fst kv)) key) (rev entries) with
  | Some kv => Own (snd kv)
  | None =>
      match find (fun m => units_eqb (units m) key) Object_prototype_members with
      | Some m => Inherited m
      | None => Missing
      end
  end.

(** [Object.entries(table).map(([k, v]) => [v, k])] *)
Definition swap_entries {K V : Type} (table : list (K * V)) : list (V * K) :=
  map (fun kv => (snd kv, fst kv)) table.

(** What a text dialect answers to [setModeCmd]: [null], a command, or the
    prefix followed by the text the engine prints for a member of
    [Object.prototype]. *)
Inductive mode_cmd : Type :=
  | NoModeCmd
  | ModeCmd (s : string)
  | ModeCmdOf (member : string).

(** Truthiness of a code read from a text table. *)
Definition truthy_code (p : property string) : bool :=
  match p with
  | Own EmptyString => false
  | Own _ => true
  | Inherited _ => true
  | Missing => false
  end.

(** The body shared by the two text dialects:
    [const code = REV[mode] || REV[mode.toUpperCase()];
     if (!code) return null; return `<prefix>${code};`]. *)
Definition text_setModeCmd (prefix : string) (REV : list (string * string))
    (mode : string) : mode_cmd :=
  let first := read REV (units mode) in
  let code := if truthy_code first then first
              else read REV (toUpperCase mode) in
  match code with
  | Own c => if truthy_code code then ModeCmd (prefix ++ c ++ ";") else NoModeCmd
  | Inherited m => ModeCmdOf m
  | Missing => NoModeCmd
  end.

Module YaesuMode.

Definition YAESU_MODES_REV : list (string * string) :=
  swap_entries YaesuProtocol.YAESU_MODES.

Definition setModeCmd (mode : string) : mode_cmd :=
  text_setModeCmd "MD0" YAESU_MODES_REV mode.

End YaesuMode.

Module KenwoodMode.

Definition KENWOOD_MODES_REV : list (string * string) :=
  swap_entries KenwoodProtocol.KENWOOD_MODES.

Definition setModeCmd (mode : string) : mode_cmd :=
  text_setModeCmd "MD" KENWOOD_MODES_REV mode.

End KenwoodMode.

Module IcomMode.

(** [Object.entries] hands the numeric keys over as strings and [parseInt]
    reads them back; [None] is NaN. *)
Definition ICOM_MODES_REV : list (string * option Z) :=
  map (fun kv => (snd kv, parseInt (String_ (fst kv)))) IcomProtocol.ICOM_MODES.

(** [const code = REV[mode] ?? REV[mode.toUpperCase()];
     if (code === undefined) return null;
     return this._frame([0x06, code, 0x01])].  A code that is no number (NaN,
    a member of [Object.prototype]) is stored in the [Buffer] as 0. *)
Definition setModeCmd (civAddr : Z) (mode : string) : option (list Z) :=
  let first := read ICOM_MODES_REV (units mode) in
  let code := match first with
              | Missing => read ICOM_MODES_REV (toUpperCase mode)
              | _ => first
              end in
  match code with
  | Own (Some c) => Some (IcomProtocol._frame civAddr [6; c; 1])
  | Own None => Some (IcomProtocol._frame civAddr [6; 0; 1])
  | Inherited _ => Some (IcomProtocol._frame civAddr [6; 0; 1])
  | Missing => None
  end.

End IcomMode.

(** ** POST /mode (lines 579-598) and [parseBody] (lines 652-659) *)

(** What a call of [protocol.setModeCmd(body.mode)] comes back with: a
    command or [null], or an exception ([mode.toUpperCase] is no function
    when [mode] is no string). *)
Inductive mode_result : Type :=
  | Returned (cmd : option frame)
  | Threw.

(** [parseBody]: [try { cb(JSON.parse(data)) } catch { cb(null) }].  A
    callback answers with [None] when it throws; the body is [JNull] when
    the text does not parse. *)
Definition parseBody {A : Type} (cb : jsval -> option A) (body : jsval)
    : option A :=
  match cb body with
  | Some r => Some r
  | None => cb JNull
  end.

Section ModeServer.
Variable setModeCmd : jsval -> mode_result.

(** The callback of POST /mode. *)
Definition post_mode_cb (b : Bridge) (body : jsval)
    : option (Bridge * Response) :=
  if negb (truthy body) || negb (truthy (member body "mode")) then
    Some (b, error 400 "Missing mode")
  else
    match setModeCmd (member body "mode") with
    | Returned cmd => Some (send_if_truthy cmd b, success)
    | Threw => None
    end.

(** POST /mode; [None] would be an exception that nobody catches. *)
Definition post_mode (body : jsval) (b : Bridge) : option (Bridge * Response) :=
  parseBody (post_mode_cb b) body.
End ModeServer.

(** ** Predicates of the statements below *)

(** The reports added to a log are frequency reports above zero, or reports
    of another field. *)
Definition no_zero_since (log0 log : list report) : Prop :=
  forall v, In (Pfreq, v) log ->
            In (Pfreq, v) log0 \/ exists n, v = VNum n /\ 0 < n.

(** The frequency the store shows is the one it showed, or above zero. *)
Definition freq_kept_or_positive (w0 w : World) : Prop :=
  freq (state w) = freq (state w0) \/
  exists n, freq (state w) = VNum n /\ 0 < n.

(** The cut between two chunks falls between the two bytes of a CI-V
    preamble: what came before ends in [0xFE], what follows begins with
    [0xFE]. *)
Definition splits_preamble (before after : list Z) : Prop :=
  exists x y, before = x ++ [254] /\ after = 254 :: y.

(** A character among ["0"] ... ["9"]. *)
Definition is_decimal (c : ascii) : bool :=
  (48 <=? code c) && (code c <=? 57).

Fixpoint all_decimal (s : string) : bool :=
  match s with
  | EmptyString => true
  | String c s' => is_decimal c && all_decimal s'
  end.

(** The frames written to the serial port so far. *)
Definition writes (b : Bridge) : list frame :=
  match serialPort b with
  | Some p => written p
  | None => []
  end.

(** A bridge that waits for its next reconnect attempt: the store shows the
    radio as disconnected and exactly one reconnect is pending, 5000 ms
    after it was scheduled. *)
Definition awaiting_reconnect (b : Bridge) : Prop :=
  brand (config b) <> mock /\
  connected (state (world b)) = VBool false /\
  timeouts b = [(5000, Reconnect)].

(** ** Sample values used by the examples below *)

(** A push-stream client that takes every write. *)
Definition listener (n : nat) : client := mkClient n true [].

(** The store as the program starts with it, one client listening. *)
Definition quiet_world : World :=
  mkWorld initial_state [listener 1] 1700000000000.

(** The Yaesu bridge with its port open, polling every 500 ms, one client
    listening, PTT allowed. *)
Definition online_bridge : Bridge :=
  mkBridge (mkWorld (set Pconnected (VBool true) initial_state)
                    [listener 1] 1700000000000)
           (mkConfig yaesu 148 500 true)
           YaesuObject
           (Some (mkPort true []))
           (Some 500)
           [].

(** The same bridge after the port has been lost and the first reconnect
    has been scheduled. *)
Definition offline_bridge : Bridge := on_close online_bridge.

(** The same bridge while the port is not open: a reconnect attempt is in
    progress. *)
Definition opening_bridge : Bridge :=
  mkBridge (mkWorld initial_state [listener 1] 1700000000000)
           (mkConfig yaesu 148 500 true)
           YaesuObject
           (Some (mkPort false []))
           None
           [].

(** The body [{ptt: true}]. *)
Definition ptt_on : jsval := JObj [("ptt", JBool true)].

(** ** Further notions used by the statements below *)

(** The commands of a list written one after the other. *)
Definition join (commands : list string) : string :=
  fold_right String.append EmptyString commands.

(** A command that ends in its one and only [;]. *)
Definition terminated (cmd : string) : Prop :=
  indexOf ";"%char cmd = Some (len cmd - 1)%nat.

(** A CI-V buffer at rest: nothing, or the start of a frame whose terminator
    has not arrived yet. *)
Definition awaiting_terminator (buffer : list Z) : Prop :=
  buffer = [] \/
  (starts_with [254; 254] buffer = true /\ buf_indexOf 253 2 buffer = None).

(** Calling [upd] for every report of a list, first to last. *)
Definition replay {St : Type} (upd : prop -> value -> St -> St)
    (reports : list report) (s : St) : St :=
  fold_left (fun s r => upd (fst r) (snd r) s) reports s.

(** The [update] messages a list of reports gives rise to on a store: one
    for each report that differs from what the store holds when its turn
    comes. *)
Fixpoint changes (clock : Z) (st : RadioState) (reports : list report)
    : list message :=
  match reports with
  | [] => []
  | (p, v) :: rest =>
      if strict_eq (get p st) v then changes clock st rest
      else Update p v
             :: changes clock (set PlastUpdate (VNum clock) (set p v st)) rest
  end.

(** A client after it has been written the messages [msgs]. *)
Definition deliver (msgs : list message) (c : client) : client :=
  mkClient (cid c) (writable c) (received c ++ msgs).

Definition is_update (m : message) : bool :=
  match m with
  | Update _ _ => true
  | Init _ _ _ _ _ => false
  end.

(** What a push-stream client may have received: the [init] snapshot first,
    [update] messages after it. *)
Definition follows_protocol (c : client) : bool :=
  match received c with
  | Init _ _ _ _ _ :: rest => forallb is_update rest
  | _ => false
  end.

Definition stream_ok (w : World) : Prop :=
  Forall (fun c => follows_protocol c = true) (sseClients w).

(** The number five packed-decimal bytes stand for. *)
Fixpoint bcd_value (data : list Z) : Z :=
  match data with
  | [] => 0
  | b :: rest =>
      Z.land b 15 + 10 * Z.land (Z.shiftr b 4) 15 + 100 * bcd_value rest
  end.

(** A byte that holds two decimal digits. *)
Definition is_bcd (b : Z) : bool :=
  (0 <=? b) && (b <? 256) && (Z.land b 15 <? 10) && (Z.shiftr b 4 <? 10).

(** A store whose fields hold values of the types the program starts
    with. *)
Definition well_typed (st : RadioState) : Prop :=
  (exists n, freq st = VNum n) /\ (exists m, mode st = VStr m) /\
  (exists t, ptt st = VBool t).

(** What a decoder may have done to a world: the connection flag, the
    filter width and the clock are as they were, the time stamp is the old
    one or the clock, and the three radio fields keep their types. *)
Definition decoded_from (w0 w : World) : Prop :=
  connected (state w) = connected (state w0) /\
  width (state w) = width (state w0) /\
  now w = now w0 /\
  (lastUpdate (state w) = lastUpdate (state w0) \/
   lastUpdate (state w) = VNum (now w0)) /\
  (well_typed (state w0) -> well_typed (state w)).

(** The Yaesu bridge with its port open and one client that has just
    subscribed to the stream. *)
Definition subscribed_bridge : Bridge :=
  with_world
    (get_stream 1 true
       (mkWorld (state (world online_bridge)) [] (now (world online_bridge))))
    online_bridge.

(** The keys of a table are in upper case already. *)
Definition upper_keys {V : Type} (entries : list (string * V)) : Prop :=
  forall k v, In (k, v) entries -> toUpperCase k = units k.

(** No code unit of a small Latin letter. *)
Definition no_lower (u : list Z) : bool :=
  forallb (fun c => negb ((97 <=? c) && (c <=? 122))) u.

(** Whether there is a serial port and the library reports it open. *)
Definition port_open (b : Bridge) : bool :=
  match serialPort b with
  | Some p => isOpen p
  | None => false
  end.

(** What a command handler may have done to the bridge: nothing but hand at
    most one frame to the port, and none to a port that is not open. *)
Definition only_wrote (b b' : Bridge) : Prop :=
  world b' = world b /\ config b' = config b /\ protocol b' = protocol b /\
  pollTimer b' = pollTimer b /\ timeouts b' = timeouts b /\
  port_open b' = port_open b /\
  (b' = b \/ port_open b = true /\ exists f, writes b' = writes b ++ [f]).

(** The answers of the command handlers. *)
Definition command_answer (r : Response) : Prop :=
  r = success \/ r = error 400 "Missing freq" \/ r = error 400 "Missing mode" \/
  r = error 403 "PTT disabled in configuration".

(** What serial events may have done to the store of a radio: only the
    connection flag can differ. *)
Definition only_connection_changed (w w' : World) : Prop :=
  freq (state w') = freq (state w) /\ mode (state w') = mode (state w) /\
  width (state w') = width (state w) /\ ptt (state w') = ptt (state w) /\
  lastUpdate (state w') = lastUpdate (state w) /\ now w' = now w.

(** Every pending timeout is a reconnect, due 5000 ms after it was set. *)
Definition reconnects_only (b : Bridge) : Prop :=
  Forall (fun t => t = (5000, Reconnect)) (timeouts b).

(** The bridge of a radio brand, with the codec of that brand in place. *)
Definition radio_bridge (b : Bridge) : Prop :=
  brand (config b) <> mock /\ protocol b = select_protocol (config b).

(** * Properties *)

(** ** Packed-decimal frequencies *)

Lemma length_buf_set i v buf : List.length (buf_set i v buf) = List.length buf.
Proof.
  revert i; induction buf as [|h t IH]; intros [|i]; simpl; auto.
Qed.

Lemma nth_buf_set_same i v buf :
  (i < List.length buf)%nat -> nth i (buf_set i v buf) 0 = v mod 256.
Proof.
  revert i; induction buf as [|h t IH]; intros [|i] Hi; simpl in *; try lia; auto.
  apply IH; lia.
Qed.

Lemma nth_buf_set_other i j v buf :
  i <> j -> nth j (buf_set i v buf) 0 = nth j buf 0.
Proof.
  revert i j; induction buf as [|h t IH]; intros [|i] [|j] Hij; simpl; auto;
    try contradiction.
Qed.

Lemma nth_freq_loop_below n : forall i buf f j,
  (j < i)%nat ->
  nth j (IcomProtocol.freq_loop n i buf f) 0 = nth j buf 0.
Proof.
  induction n as [|n IH]; intros i buf f j Hj; simpl; auto.
  rewrite IH by lia. apply nth_buf_set_other; lia.
Qed.

Lemma length_freq_loop n : forall i buf f,
  List.length (IcomProtocol.freq_loop n i buf f) = List.length buf.
Proof.
  induction n as [|n IH]; intros; simpl; auto.
  rewrite IH. apply length_buf_set.
Qed.

(** Two decimal digits packed in a byte come out again. *)
Lemma unpack_digits hi lo :
  0 <= hi < 10 -> 0 <= lo < 10 ->
  Z.land (Z.lor (Z.shiftl hi 4) lo mod 256) 15 = lo /\
  Z.land (Z.shiftr (Z.lor (Z.shiftl hi 4) lo mod 256) 4) 15 = hi.
Proof.
  intros Hh Hl.
  assert (Ih : In hi [0; 1; 2; 3; 4; 5; 6; 7; 8; 9]) by (simpl; lia).
  assert (Il : In lo [0; 1; 2; 3; 4; 5; 6; 7; 8; 9]) by (simpl; lia).
  simpl in Ih, Il.
  repeat (destruct Ih as [<-|Ih];
          [ repeat (destruct Il as [<-|Il]; [ split; reflexivity | ]);
            contradiction | ]).
  contradiction.
Qed.

Lemma two_digits f : 0 <= f ->
  f mod 10 + 10 * ((f / 10) mod 10) = f mod 100 /\ f / 10 / 10 = f / 100.
Proof.
  intros Hf.
  assert (H : f / 10 / 10 = f / 100) by (rewrite Z.div_div by lia; reflexivity).
  split; [ | exact H ].
  rewrite (Z.mod_eq (f / 10) 10), H by lia.
  Z.div_mod_to_equations. lia.
Qed.

(** Decoding what [freq_loop] has written gives the low [2 n] digits. *)
Lemma bcd_loop_freq_loop n : forall i buf f acc mult,
  0 <= f -> (i + n <= List.length buf)%nat ->
  IcomProtocol.bcd_loop n i (IcomProtocol.freq_loop n i buf f) acc mult
  = acc + mult * (f mod 100 ^ Z.of_nat n).
Proof.
  induction n as [|n IH]; intros i buf f acc mult Hf Hlen.
  - simpl. rewrite Z.mod_1_r. lia.
  - cbn [IcomProtocol.bcd_loop IcomProtocol.freq_loop].
    rewrite nth_freq_loop_below by lia.
    rewrite nth_buf_set_same by lia.
    rewrite !Z.rem_mod_nonneg by (try apply Z.div_pos; lia).
    destruct (unpack_digits ((f / 10) mod 10) (f mod 10)) as [-> ->];
      try (apply Z.mod_pos_bound; lia).
    rewrite IH; [ | apply Z.div_pos; [apply Z.div_pos|]; lia
                  | rewrite length_buf_set; lia ].
    destruct (two_digits f Hf) as [H1 ->].
    rewrite Nat2Z.inj_succ, Z.pow_succ_r by lia.
    rewrite (Z.rem_mul_r f 100 (100 ^ Z.of_nat n)) by (try apply Z.pow_pos_nonneg; lia).
    rewrite <- H1. ring.
Qed.

Lemma land_15_bounds x : 0 <= Z.land x 15 <= 15.
Proof.
  assert (E : Z.land x 15 = x mod 16)
    by (change 15 with (Z.ones 4); rewrite Z.land_ones by lia; reflexivity).
  rewrite E. pose proof (Z.mod_pos_bound x 16). lia.
Qed.

Lemma bcd_loop_bounds n : forall i data acc mult,
  0 <= mult ->
  0 <= 3 * (IcomProtocol.bcd_loop n i data acc mult - acc)
    <= 5 * mult * (100 ^ Z.of_nat n - 1).
Proof.
  induction n as [|n IH]; intros i data acc mult Hm.
  - cbn [IcomProtocol.bcd_loop Z.of_nat]. rewrite Z.pow_0_r. lia.
  - cbn [IcomProtocol.bcd_loop].
    set (lo := Z.land (nth i data 0) 15).
    set (hi := Z.land (Z.shiftr (nth i data 0) 4) 15).
    assert (Hlo : 0 <= lo <= 15) by apply land_15_bounds.
    assert (Hhi : 0 <= hi <= 15) by apply land_15_bounds.
    specialize (IH (S i) data (acc + lo * mult + hi * (mult * 10)) (mult * 10 * 10)).
    rewrite Nat2Z.inj_succ, Z.pow_succ_r by lia.
    assert (0 <= 100 ^ Z.of_nat n) by (apply Z.pow_nonneg; lia).
    nia.
Qed.

(** The decoder reads at most ten digits of four bits each, so its result
    stays far below 2^53. *)
Lemma _bcdToFreq_bounds data :
  0 <= IcomProtocol._bcdToFreq data <= 16666666665.
Proof.
  unfold IcomProtocol._bcdToFreq.
  pose proof (bcd_loop_bounds (Nat.min (List.length data) 5) 0 data 0 1) as H.
  assert (Hn : (Nat.min (List.length data) 5 <= 5)%nat) by lia.
  assert (Hp : 100 ^ Z.of_nat (Nat.min (List.length data) 5) <= 100 ^ 5)
    by (apply Z.pow_le_mono_r; lia).
  change (100 ^ 5) with 10000000000 in Hp. lia.
Qed.

(** C1. Every frequency of at most ten decimal digits survives the packed
    decimal encoding: [_bcdToFreq (_freqToBcd f) = f] for
    [0 <= f <= 9,999,999,999]; and [_bcdToFreq] returns a number, between 0
    and 16,666,666,665, on every byte sequence of any length. *)
Theorem bcd_roundtrip_and_total :
  (forall f, 0 <= f <= 9999999999 ->
     IcomProtocol._bcdToFreq (IcomProtocol._freqToBcd f) = f) /\
  (forall data, exists v,
     IcomProtocol._bcdToFreq data = v /\ 0 <= v <= 16666666665).
Proof.
  split.
  - intros f Hf. unfold IcomProtocol._bcdToFreq, IcomProtocol._freqToBcd.
    rewrite length_freq_loop. cbn [repeat List.length Nat.min].
    rewrite bcd_loop_freq_loop by (cbn; lia).
    change (100 ^ Z.of_nat 5) with 10000000000.
    rewrite Z.mod_small by lia. lia.
  - intros data. exists (IcomProtocol._bcdToFreq data).
    split; [ reflexivity | apply _bcdToFreq_bounds ].
Qed.

Lemma bcd_roundtrip_witness :
  IcomProtocol._bcdToFreq (IcomProtocol._freqToBcd 14074000) = 14074000.
Proof. apply (proj1 bcd_roundtrip_and_total 14074000). lia. Defined.

(** ** The store changes on a difference only *)

Lemma strict_eq_true a b : strict_eq a b = true <-> a = b.
Proof.
  destruct a, b; simpl; split; intros H; try discriminate; try congruence.
  - apply Z.eqb_eq in H. congruence.
  - injection H as ->. apply Z.eqb_refl.
  - apply String.eqb_eq in H. congruence.
  - injection H as ->. apply String.eqb_refl.
  - apply Bool.eqb_prop in H. congruence.
  - injection H as ->. apply Bool.eqb_reflx.
Qed.

Lemma strict_eq_false a b : strict_eq a b = false <-> a <> b.
Proof.
  rewrite <- strict_eq_true. destruct (strict_eq a b); split; congruence.
Qed.

(** C5. [updateState] with the value the store already holds changes
    nothing at all: not the field, not the time stamp, and no client is
    written to.  With a different value it assigns the field, stamps
    [lastUpdate] with the clock and broadcasts one [update] message.  So a
    world that has changed in any way witnesses a value that differed. *)
Theorem updateState_on_change_only (p : prop) (v : value) (w : World) :
  (get p (state w) = v -> updateState p v w = w) /\
  (updateState p v w <> w -> get p (state w) <> v) /\
  (get p (state w) <> v ->
     state (updateState p v w)
       = set PlastUpdate (VNum (now w)) (set p v (state w)) /\
     sseClients (updateState p v w)
       = broadcast (Update p v) (sseClients w)).
Proof.
  unfold updateState.
  destruct (strict_eq (get p (state w)) v) eqn:E.
  - apply strict_eq_true in E.
    split; [ reflexivity | split; [ congruence | intros H; contradiction ] ].
  - apply strict_eq_false in E.
    split; [ intros H; contradiction | split; [ intros _; exact E | ] ].
    intros _. split; reflexivity.
Qed.

Lemma updateState_on_change_only_witness :
  updateState Pmode (VStr "") quiet_world = quiet_world /\
  (state (updateState Pfreq (VNum 7100000) quiet_world)
     = set PlastUpdate (VNum 1700000000000)
         (set Pfreq (VNum 7100000) initial_state) /\
   sseClients (updateState Pfreq (VNum 7100000) quiet_world)
     = [mkClient 1 true [Update Pfreq (VNum 7100000)]]).
Proof.
  split.
  - apply (proj1 (updateState_on_change_only Pmode (VStr "") quiet_world)).
    reflexivity.
  - apply (proj2 (proj2 (updateState_on_change_only Pfreq (VNum 7100000)
                           quiet_world))).
    discriminate.
Defined.

Lemma get_updateState p v w :
  p <> PlastUpdate -> get p (state (updateState p v w)) = v.
Proof.
  intros Hp. unfold updateState.
  destruct (strict_eq (get p (state w)) v) eqn:E.
  - apply strict_eq_true in E. exact E.
  - destruct p; simpl; congruence.
Qed.

Lemma get_updateState_other p q v w :
  q <> p -> q <> PlastUpdate ->
  get q (state (updateState p v w)) = get q (state w).
Proof.
  intros Hq Hl. unfold updateState.
  destruct (strict_eq (get p (state w)) v); [ reflexivity | ].
  destruct p, q; simpl; congruence.
Qed.

(** A client that connects first and then sees the radio report the same
    frequency twice, a mode, and the PTT state the store already holds: one
    [init], then one [update] for each field that changed. *)
Example stream_scenario :
  let w1 := get_stream 1 true (mkWorld initial_state [] 1700000000000) in
  let w2 := snd (YaesuProtocol.parseResponse updateState
                   "FA014074000;FA014074000;MD03;TX0;" "" w1) in
  map received (sseClients w2)
  = [[Init (VBool false) (VNum 0) (VStr "") (VNum 0) (VBool false);
      Update Pfreq (VNum 14074000);
      Update Pmode (VStr "CW")]].
Proof. vm_compute. reflexivity. Qed.

(** ** The Yaesu scenario *)

Lemma yaesu_scenario_reports {St : Type} (upd : prop -> value -> St -> St) (s : St) :
  YaesuProtocol.parseResponse upd "FA014074000;MD03;TX0;" "" s
  = ("", upd Pptt (VBool false)
           (upd Pmode (VStr "CW") (upd Pfreq (VNum 14074000) s))).
Proof. vm_compute. reflexivity. Qed.

(** C9. Whatever the store held before, after the Yaesu decoder has read
    ["FA014074000;MD03;TX0;"] from an empty buffer the store shows 14,074,000
    Hz, mode CW and PTT off, and the buffer is empty again. *)
Theorem yaesu_scenario (w : World) :
  let '(buffer, w') :=
    YaesuProtocol.parseResponse updateState "FA014074000;MD03;TX0;" "" w in
  buffer = "" /\
  freq (state w') = VNum 14074000 /\
  mode (state w') = VStr "CW" /\
  ptt (state w') = VBool false.
Proof.
  rewrite yaesu_scenario_reports.
  split; [ reflexivity | ].
  split; [ | split ].
  - change (get Pfreq (state (updateState Pptt (VBool false)
              (updateState Pmode (VStr "CW")
                 (updateState Pfreq (VNum 14074000) w)))) = VNum 14074000).
    rewrite !get_updateState_other by discriminate.
    apply get_updateState; discriminate.
  - change (get Pmode (state (updateState Pptt (VBool false)
              (updateState Pmode (VStr "CW")
                 (updateState Pfreq (VNum 14074000) w)))) = VStr "CW").
    rewrite get_updateState_other by discriminate.
    apply get_updateState; discriminate.
  - apply (get_updateState Pptt); discriminate.
Qed.

(** ** A frequency of zero is never reported *)

(** An invariant of the store survives a decoder as soon as it survives
    every call of [updateState] that does not carry a frequency, and every
    call that carries a positive one. *)
Section ReportInvariant.
Context {St : Type} (upd : prop -> value -> St -> St) (I : St -> Prop).
Hypothesis upd_freq : forall n s, 0 < n -> I s -> I (upd Pfreq (VNum n) s).
Hypothesis upd_mode : forall v s, I s -> I (upd Pmode v s).
Hypothesis upd_ptt : forall v s, I s -> I (upd Pptt v s).

Ltac branches :=
  repeat match goal with
         | |- context [match ?x with _ => _ end] => destruct x eqn:?
         end.

Ltac close :=
  repeat first
    [ assumption
    | apply upd_mode
    | apply upd_ptt
    | apply upd_freq; [ apply Z.ltb_lt; assumption | ] ].

Lemma yaesu_handle_invariant s cmd : I s -> I (YaesuProtocol.handle upd s cmd).
Proof. intros Hs. unfold YaesuProtocol.handle. branches; close. Qed.

Lemma kenwood_handle_invariant s cmd : I s -> I (KenwoodProtocol.handle upd s cmd).
Proof. intros Hs. unfold KenwoodProtocol.handle. branches; close. Qed.

Lemma icom_handle_invariant frame s : I s -> I (IcomProtocol.handle upd frame s).
Proof. intros Hs. unfold IcomProtocol.handle. branches; close. Qed.

Lemma fold_handle_invariant (handle : St -> string -> St) commands :
  (forall s cmd, I s -> I (handle s cmd)) ->
  forall s, I s -> I (fold_left handle commands s).
Proof.
  intros Hh. induction commands as [|c cs IH]; intros s Hs; simpl; auto.
Qed.

Lemma yaesu_invariant chunk buffer s :
  I s -> I (snd (YaesuProtocol.parseResponse upd chunk buffer s)).
Proof.
  intros Hs. unfold YaesuProtocol.parseResponse.
  destruct (extract _ _ _) as [commands rest]. simpl.
  apply fold_handle_invariant; auto using yaesu_handle_invariant.
Qed.

Lemma kenwood_invariant chunk buffer s :
  I s -> I (snd (KenwoodProtocol.parseResponse upd chunk buffer s)).
Proof.
  intros Hs. unfold KenwoodProtocol.parseResponse.
  destruct (extract _ _ _) as [commands rest]. simpl.
  apply fold_handle_invariant; auto using kenwood_handle_invariant.
Qed.

Lemma icom_loop_invariant fuel : forall buffer s,
  I s -> I (snd (IcomProtocol.parse_loop upd fuel buffer s)).
Proof.
  induction fuel as [|k IH]; intros buffer s Hs; simpl; auto.
  destruct (buf_indexOf_seq _ _); simpl; auto.
  destruct (buf_indexOf _ _ _); simpl; auto.
  apply IH. apply icom_handle_invariant. exact Hs.
Qed.

Lemma icom_invariant chunk buffer s :
  I s -> I (snd (IcomProtocol.parseResponse upd chunk buffer s)).
Proof. intros Hs. apply icom_loop_invariant. exact Hs. Qed.
End ReportInvariant.

Lemma no_zero_since_refl log0 : no_zero_since log0 log0.
Proof. intros v Hv. left. exact Hv. Qed.

Lemma no_zero_since_freq log0 n log :
  0 < n -> no_zero_since log0 log ->
  no_zero_since log0 (record_report Pfreq (VNum n) log).
Proof.
  intros Hn H v Hv. unfold record_report in Hv.
  apply in_app_or in Hv. destruct Hv as [Hv|[Hv|[]]]; auto.
  injection Hv as <-. right. exists n. auto.
Qed.

Lemma no_zero_since_other log0 p v log :
  p <> Pfreq -> no_zero_since log0 log ->
  no_zero_since log0 (record_report p v log).
Proof.
  intros Hp H u Hu. unfold record_report in Hu.
  apply in_app_or in Hu. destruct Hu as [Hu|[Hu|[]]]; auto.
  congruence.
Qed.

Lemma freq_kept_refl w0 : freq_kept_or_positive w0 w0.
Proof. left. reflexivity. Qed.

Lemma freq_kept_freq w0 n w :
  0 < n -> freq_kept_or_positive w0 w ->
  freq_kept_or_positive w0 (updateState Pfreq (VNum n) w).
Proof.
  intros Hn _. right. exists n. split; [ | exact Hn ].
  apply (get_updateState Pfreq). discriminate.
Qed.

Lemma freq_kept_other w0 p v w :
  p <> Pfreq -> p <> PlastUpdate -> freq_kept_or_positive w0 w ->
  freq_kept_or_positive w0 (updateState p v w).
Proof.
  intros Hp Hl H. unfold freq_kept_or_positive.
  change (freq (state (updateState p v w)))
    with (get Pfreq (state (updateState p v w))).
  rewrite get_updateState_other by congruence. exact H.
Qed.

Example zero_reports_dropped :
  YaesuProtocol.parseResponse record_report "FA000000000;" "" [] = ("", []) /\
  KenwoodProtocol.parseResponse record_report "FA00000000000;" "" [] = ("", []) /\
  IcomProtocol.parseResponse record_report
    (IcomProtocol.Bytes [254; 254; 224; 148; 3; 0; 0; 0; 0; 0; 253]) [] []
  = ([], []).
Proof. repeat split; vm_compute; reflexivity. Qed.

(** C4. Whatever bytes a decoder is fed, from whatever buffer: no call
    [updateState('freq', 0)] is made (each frequency report it adds to a log
    of the calls carries a number above zero), and the frequency of the store
    afterwards is the one it had before or a number above zero.  This holds
    for the Yaesu, the Kenwood and the Icom decoder. *)
Theorem zero_frequency_never_stored :
  (forall chunk buffer log w,
     no_zero_since log
       (snd (YaesuProtocol.parseResponse record_report chunk buffer log)) /\
     freq_kept_or_positive w
       (snd (YaesuProtocol.parseResponse updateState chunk buffer w))) /\
  (forall chunk buffer log w,
     no_zero_since log
       (snd (KenwoodProtocol.parseResponse record_report chunk buffer log)) /\
     freq_kept_or_positive w
       (snd (KenwoodProtocol.parseResponse updateState chunk buffer w))) /\
  (forall chunk buffer log w,
     no_zero_since log
       (snd (IcomProtocol.parseResponse record_report chunk buffer log)) /\
     freq_kept_or_positive w
       (snd (IcomProtocol.parseResponse updateState chunk buffer w))).
Proof.
  repeat split.
  - apply yaesu_invariant; intros;
      auto using no_zero_since_refl, no_zero_since_freq;
      apply no_zero_since_other; auto; discriminate.
  - apply yaesu_invariant; intros;
      auto using freq_kept_refl, freq_kept_freq;
      apply freq_kept_other; auto; discriminate.
  - apply kenwood_invariant; intros;
      auto using no_zero_since_refl, no_zero_since_freq;
      apply no_zero_since_other; auto; discriminate.
  - apply kenwood_invariant; intros;
      auto using freq_kept_refl, freq_kept_freq;
      apply freq_kept_other; auto; discriminate.
  - apply icom_invariant; intros;
      auto using no_zero_since_refl, no_zero_since_freq;
      apply no_zero_since_other; auto; discriminate.
  - apply icom_invariant; intros;
      auto using freq_kept_refl, freq_kept_freq;
      apply freq_kept_other; auto; discriminate.
Qed.

(** ** The command handlers *)

(** C10. A POST /freq whose [freq] is falsy (0, [null], [false], the empty
    string, or no [freq] at all, or a body that is no object) is answered 400
    [{error: "Missing freq"}] and leaves the bridge as it was: the answer
    does not depend on the codec, which is not asked to encode, and nothing
    is written to the port.  The answer is the one a body without [freq]
    gets. *)
Theorem post_freq_falsy (ToInteger : jsval -> Z) (body : jsval) (b : Bridge) :
  truthy (member body "freq") = false ->
  post_freq ToInteger body b = (b, error 400 "Missing freq") /\
  post_freq ToInteger body b = post_freq ToInteger (JObj []) b.
Proof.
  intros H. unfold post_freq. rewrite H. simpl.
  rewrite orb_true_r. split; reflexivity.
Qed.

Lemma post_freq_falsy_witness :
  post_freq (fun _ => 0) (JObj [("freq", JNum 0)]) online_bridge
  = (online_bridge, error 400 "Missing freq").
Proof.
  apply (proj1 (post_freq_falsy (fun _ => 0) (JObj [("freq", JNum 0)])
                  online_bridge eq_refl)).
Defined.

(** The three codecs of a radio always have a PTT frame to send. *)
Lemma real_codec_has_ptt_frame cfg on :
  brand cfg <> mock ->
  exists f, setPttCmd (select_protocol cfg) on = Some f /\
            frame_truthy (Some f) = true.
Proof.
  intros Hb. unfold select_protocol.
  destruct (brand cfg); try contradiction; destruct on;
    eexists; split; reflexivity.
Qed.

(** C6, as the code has it.  A POST /ptt that asks for PTT on while
    [pttEnabled] is false is answered 403 [{error: "PTT disabled in
    configuration"}] and the bridge is left as it was, so nothing is written.
    While [pttEnabled] is true the same request is answered 200; the PTT-on
    frame of the codec is written once when the serial port is open, and
    nothing is written when there is no open port. *)
Theorem post_ptt_policy (body : jsval) (b : Bridge) :
  truthy (member body "ptt") = true ->
  (pttEnabled (config b) = false ->
     post_ptt body b = (b, error 403 "PTT disabled in configuration")) /\
  (pttEnabled (config b) = true ->
     forall p f,
       serialPort b = Some p -> isOpen p = true ->
       setPttCmd (protocol b) true = Some f ->
       frame_truthy (Some f) = true ->
       post_ptt body b = (with_port (Some (port_write f p)) b, success) /\
       writes (fst (post_ptt body b)) = writes b ++ [f]) /\
  (pttEnabled (config b) = true ->
     (forall p, serialPort b = Some p -> isOpen p = false) ->
     post_ptt body b = (b, success)).
Proof.
  intros Hon. unfold post_ptt. rewrite Hon.
  split; [ | split ].
  - intros ->. reflexivity.
  - intros -> p f Hp Ho Hf Ht. simpl. rewrite Hf.
    unfold send_if_truthy. rewrite Ht. unfold sendToRadio.
    rewrite Hp, Ho. simpl. split; [ reflexivity | ].
    unfold writes. rewrite Hp. reflexivity.
  - intros -> Hclosed. simpl.
    unfold send_if_truthy, sendToRadio.
    destruct (setPttCmd (protocol b) true) as [f|]; [ | reflexivity ].
    destruct (frame_truthy (Some f)); [ | reflexivity ].
    destruct (serialPort b) as [p|]; [ | reflexivity ].
    rewrite (Hclosed p eq_refl). reflexivity.
Qed.

Lemma post_ptt_policy_witness :
  post_ptt ptt_on online_bridge
  = (with_port (Some (port_write (TextFrame "TX1;") (mkPort true [])))
               online_bridge, success) /\
  writes (fst (post_ptt ptt_on online_bridge))
  = writes online_bridge ++ [TextFrame "TX1;"].
Proof.
  apply (proj1 (proj2 (post_ptt_policy ptt_on online_bridge eq_refl)) eq_refl
           (mkPort true []) (TextFrame "TX1;")); reflexivity.
Defined.

(** C6 as the specification words it fails while the port is not open: the
    request is answered 200 and no frame is written. *)
Lemma post_ptt_unreachable_radio :
  ~ (forall b, pttEnabled (config b) = true ->
       exists f, setPttCmd (protocol b) true = Some f /\
                 writes (fst (post_ptt ptt_on b)) = writes b ++ [f]).
Proof.
  intros H. destruct (H opening_bridge eq_refl) as [f [_ Hw]].
  vm_compute in Hw. discriminate Hw.
Qed.

(** ** Loss of the port and the reconnect loop *)

Lemma run_app b es1 es2 : run b (es1 ++ es2) = run (run b es1) es2.
Proof. unfold run. apply fold_left_app. Qed.

Lemma attempt_keeps_waiting b succeeds :
  awaiting_reconnect b -> awaiting_reconnect (run b (attempt succeeds)).
Proof.
  destruct b as [w cfg proto port timer ts].
  unfold awaiting_reconnect. simpl. intros (Hb & Hc & ->).
  destruct succeeds; simpl;
    unfold fire_timeout, reconnect, initSerial; simpl;
    destruct (brand cfg) eqn:E; try contradiction; simpl;
    rewrite ?E; repeat split; auto; try discriminate.
Qed.

Lemma attempts_keep_waiting outcomes : forall b,
  awaiting_reconnect b ->
  awaiting_reconnect (run b (concat (map attempt outcomes))).
Proof.
  induction outcomes as [|o os IH]; intros b Hb; simpl.
  - exact Hb.
  - rewrite run_app. apply IH. apply attempt_keeps_waiting. exact Hb.
Qed.

(** C7, as the code has it.  The handler of ['close'] sets [connected] to
    false, writes one [update] message to every client, stops the poll timer
    and schedules one reconnect 5000 ms ahead.  The handler of ['error'] sets
    [connected] to false and writes one [update] message to every client; it
    leaves the poll timer and the pending timeouts as they are.  From a
    bridge that awaits a reconnect, any number of reconnect attempts, each
    failing at once or succeeding and losing the port again, ends with the
    bridge awaiting the next reconnect. *)
Theorem loss_and_reconnect (b : Bridge) :
  (connected (state (world (on_close b))) = VBool false /\
   sseClients (world (on_close b))
     = broadcast (Update Pconnected (VBool false)) (sseClients (world b)) /\
   pollTimer (on_close b) = None /\
   timeouts (on_close b) = timeouts b ++ [(5000, Reconnect)]) /\
  (connected (state (world (on_error b))) = VBool false /\
   sseClients (world (on_error b))
     = broadcast (Update Pconnected (VBool false)) (sseClients (world b)) /\
   pollTimer (on_error b) = pollTimer b /\
   timeouts (on_error b) = timeouts b) /\
  (awaiting_reconnect b ->
   forall outcomes : list bool,
     awaiting_reconnect (run b (concat (map attempt outcomes)))).
Proof.
  split; [ | split ].
  - repeat split; reflexivity.
  - repeat split; reflexivity.
  - intros Hb outcomes. apply attempts_keep_waiting. exact Hb.
Qed.

Lemma loss_and_reconnect_witness :
  awaiting_reconnect
    (run offline_bridge (concat (map attempt [false; true; false]))).
Proof.
  apply (proj2 (proj2 (loss_and_reconnect offline_bridge))).
  unfold awaiting_reconnect. simpl.
  split; [ discriminate | split; reflexivity ].
Defined.

(** C7 as the specification words it fails on ['error']: with the port open
    and no timeout pending, the handler schedules no reconnect, and the poll
    timer keeps running. *)
Lemma error_schedules_no_reconnect :
  timeouts online_bridge = [] /\
  timeouts (step online_bridge Errored) = [] /\
  pollTimer (step online_bridge Errored) = Some 500 /\
  connected (state (world (step online_bridge Errored))) = VBool false.
Proof. repeat split; reflexivity. Qed.

(** A loss that the port reports by ['error'] and then by ['close'] is
    notified twice: both handlers broadcast without looking at the store. *)
Example error_then_close_notifies_twice :
  map received (sseClients (world (run online_bridge [Errored; Closed])))
  = [[Update Pconnected (VBool false); Update Pconnected (VBool false)]].
Proof. reflexivity. Qed.

(** ** Cutting CI-V frames out of the buffer *)

Lemma find_byte_found b l i : find_byte b l = Some i -> (i < List.length l)%nat.
Proof.
  revert i; induction l as [|a l IH]; intros i; simpl; [ discriminate | ].
  destruct (a =? b).
  - intros [= <-]. lia.
  - destruct (find_byte b l) as [j|]; simpl; [ | discriminate ].
    intros [= <-]. specialize (IH j eq_refl). lia.
Qed.

Lemma find_byte_app b x y :
  find_byte b (x ++ y)
  = match find_byte b x with
    | Some i => Some i
    | None => option_map (Nat.add (List.length x)) (find_byte b y)
    end.
Proof.
  induction x as [|a x IH]; simpl.
  - destruct (find_byte b y); reflexivity.
  - destruct (a =? b); [ reflexivity | ].
    rewrite IH. destruct (find_byte b x); [ reflexivity | ].
    destruct (find_byte b y); reflexivity.
Qed.

Lemma buf_indexOf_found b off l e :
  buf_indexOf b off l = Some e -> (off <= e < List.length l)%nat.
Proof.
  unfold buf_indexOf.
  destruct (find_byte b (skipn off l)) as [i|] eqn:E; simpl; [ | discriminate ].
  intros [= <-]. apply find_byte_found in E. rewrite length_skipn in E. lia.
Qed.

Lemma skipn_app_within {A} n (x y : list A) :
  (n <= List.length x)%nat -> skipn n (x ++ y) = skipn n x ++ y.
Proof.
  intros H. rewrite skipn_app. replace (n - List.length x)%nat with O by lia.
  reflexivity.
Qed.

Lemma skipn_app_beyond {A} n (x y : list A) :
  skipn (List.length x + n) (x ++ y) = skipn n y.
Proof.
  rewrite skipn_app. rewrite skipn_all2 by lia.
  replace (List.length x + n - List.length x)%nat with n by lia. reflexivity.
Qed.

Lemma firstn_app_within {A} n (x y : list A) :
  (n <= List.length x)%nat -> firstn n (x ++ y) = firstn n x.
Proof.
  intros H. rewrite firstn_app. replace (n - List.length x)%nat with O by lia.
  rewrite firstn_0, app_nil_r. reflexivity.
Qed.

Lemma buf_indexOf_app_found b x y off e :
  buf_indexOf b off x = Some e -> buf_indexOf b off (x ++ y) = Some e.
Proof.
  intros H. pose proof (buf_indexOf_found _ _ _ _ H) as Hb.
  unfold buf_indexOf in *. rewrite skipn_app_within by lia.
  rewrite find_byte_app.
  destruct (find_byte b (skipn off x)); [ exact H | discriminate ].
Qed.

Lemma buf_indexOf_app_none b x y off :
  (off <= List.length x)%nat -> buf_indexOf b off x = None ->
  buf_indexOf b off (x ++ y)
  = option_map (Nat.add (List.length x)) (find_byte b y).
Proof.
  intros Hoff H. unfold buf_indexOf in *. rewrite skipn_app_within by lia.
  rewrite find_byte_app.
  destruct (find_byte b (skipn off x)); [ discriminate | ].
  rewrite length_skipn.
  destruct (find_byte b y); simpl; [ f_equal; lia | reflexivity ].
Qed.

Lemma buf_indexOf_app_beyond b x y off :
  buf_indexOf b (List.length x + off) (x ++ y)
  = option_map (Nat.add (List.length x)) (buf_indexOf b off y).
Proof.
  unfold buf_indexOf. rewrite skipn_app_beyond.
  destruct (find_byte b (skipn off y)); simpl; [ f_equal; lia | reflexivity ].
Qed.

Lemma starts_with_app p : forall x y,
  starts_with p x = true -> starts_with p (x ++ y) = true.
Proof.
  induction p as [|a p IH]; intros [|b x] y; simpl; auto; try discriminate.
  intros H. apply andb_true_iff in H. destruct H as [-> H].
  simpl. apply IH. exact H.
Qed.

Lemma starts_with_app_long p : forall x y,
  (List.length p <= List.length x)%nat ->
  starts_with p (x ++ y) = starts_with p x.
Proof.
  induction p as [|a p IH]; intros [|b x] y; simpl; auto; try lia.
  intros H. rewrite IH by lia. reflexivity.
Qed.

Lemma preamble_found x : forall st,
  buf_indexOf_seq [254; 254] x = Some st ->
  (st + 2 <= List.length x)%nat /\ starts_with [254; 254] (skipn st x) = true.
Proof.
  induction x as [|a x IH]; intros st.
  - simpl. discriminate.
  - cbn [buf_indexOf_seq].
    destruct (starts_with [254; 254] (a :: x)) eqn:E.
    + intros [= <-]. split; [ | exact E ].
      destruct x; simpl in *; [ | lia ].
      rewrite andb_false_r in E. discriminate.
    + destruct (buf_indexOf_seq [254; 254] x) as [j|]; simpl; [ | discriminate ].
      intros [= <-]. destruct (IH j eq_refl) as [H1 H2].
      split; [ simpl; lia | exact H2 ].
Qed.

Lemma preamble_at_head l :
  starts_with [254; 254] l = true -> buf_indexOf_seq [254; 254] l = Some O.
Proof. destruct l; cbn [buf_indexOf_seq]; intros ->; reflexivity. Qed.

Lemma preamble_app_found x y : forall st,
  buf_indexOf_seq [254; 254] x = Some st ->
  buf_indexOf_seq [254; 254] (x ++ y) = Some st.
Proof.
  induction x as [|a x IH]; intros st.
  - simpl. discriminate.
  - change ((a :: x) ++ y) with (a :: (x ++ y)). cbn [buf_indexOf_seq].
    destruct (starts_with [254; 254] (a :: x)) eqn:E.
    + intros [= <-].
      change (a :: (x ++ y)) with ((a :: x) ++ y).
      rewrite starts_with_app by exact E. reflexivity.
    + destruct (buf_indexOf_seq [254; 254] x) as [j|] eqn:Ex;
        cbn [option_map]; [ | discriminate ].
      intros [= <-]. destruct (preamble_found _ _ Ex) as [Hlen _].
      change (a :: (x ++ y)) with ((a :: x) ++ y).
      rewrite starts_with_app_long by (simpl; lia).
      rewrite E, (IH j eq_refl). reflexivity.
Qed.

Lemma splits_preamble_cons a x y :
  splits_preamble x y -> splits_preamble (a :: x) y.
Proof.
  intros (x' & y' & -> & ->). exists (a :: x'), y'. split; reflexivity.
Qed.

Lemma preamble_app_none x y :
  buf_indexOf_seq [254; 254] x = None ->
  ~ splits_preamble x y ->
  buf_indexOf_seq [254; 254] (x ++ y)
  = option_map (Nat.add (List.length x)) (buf_indexOf_seq [254; 254] y).
Proof.
  induction x as [|a x IH]; intros Hn Hj.
  - simpl. destruct (buf_indexOf_seq [254; 254] y); reflexivity.
  - cbn [buf_indexOf_seq] in Hn.
    destruct (starts_with [254; 254] (a :: x)) eqn:E; [ discriminate | ].
    destruct (buf_indexOf_seq [254; 254] x) eqn:Ex; [ discriminate | ].
    change ((a :: x) ++ y) with (a :: (x ++ y)). cbn [buf_indexOf_seq].
    assert (Hs : starts_with [254; 254] (a :: (x ++ y)) = false).
    { destruct x as [|b x].
      - destruct y as [|c y]; cbn [app starts_with]; [ apply andb_false_r | ].
        destruct (254 =? a) eqn:Ea; [ | reflexivity ].
        destruct (254 =? c) eqn:Ec; [ | reflexivity ].
        exfalso. apply Hj. apply Z.eqb_eq in Ea, Ec. subst a c.
        exists [], y. split; reflexivity.
      - exact E. }
    rewrite Hs, IH; [ | reflexivity | ].
    + destruct (buf_indexOf_seq [254; 254] y); reflexivity.
    + intros H. apply Hj. apply splits_preamble_cons. exact H.
Qed.

Lemma splits_preamble_skipn n x y :
  splits_preamble (skipn n x) y -> splits_preamble x y.
Proof.
  intros (x' & y' & Hx & ->).
  exists (firstn n x ++ x'), y'. split; [ | reflexivity ].
  rewrite <- app_assoc, <- Hx. symmetry. apply firstn_skipn.
Qed.

Section IcomBuffer.
Context {St : Type} (upd : prop -> value -> St -> St).

Local Abbreviation loop := (IcomProtocol.parse_loop upd).
Local Abbreviation parse b s :=
  (IcomProtocol.parse_loop upd (S (List.length b)) b s).

Lemma parse_loop_S k buffer s :
  loop (S k) buffer s
  = match buf_indexOf_seq [254; 254] buffer with
    | None => ([], s)
    | Some start =>
        match buf_indexOf 253 (start + 2) buffer with
        | None => (skipn start buffer, s)
        | Some e =>
            loop k (skipn (e + 1) buffer)
                 (IcomProtocol.handle upd (subarray buffer start (e + 1)) s)
        end
    end.
Proof. reflexivity. Qed.

(** The loop never runs out of the fuel [parseResponse] gives it: more
    fuel than the buffer has bytes changes nothing. *)
Lemma parse_loop_fuel k1 : forall k2 buffer s,
  (List.length buffer < k1)%nat -> (List.length buffer < k2)%nat ->
  loop k1 buffer s = loop k2 buffer s.
Proof.
  induction k1 as [|k1 IH]; intros [|k2] buffer s H1 H2; try lia.
  simpl.
  destruct (buf_indexOf_seq [254; 254] buffer) as [start|]; [ | reflexivity ].
  destruct (buf_indexOf 253 (start + 2) buffer) as [e|] eqn:E;
    [ | reflexivity ].
  apply buf_indexOf_found in E.
  apply IH; unfold subarray_from; rewrite length_skipn; lia.
Qed.

Lemma parse_unfold buffer s :
  parse buffer s
  = match buf_indexOf_seq [254; 254] buffer with
    | None => ([], s)
    | Some start =>
        match buf_indexOf 253 (start + 2) buffer with
        | None => (skipn start buffer, s)
        | Some e =>
            parse (skipn (e + 1) buffer)
                  (IcomProtocol.handle upd (subarray buffer start (e + 1)) s)
        end
    end.
Proof.
  rewrite parse_loop_S.
  destruct (buf_indexOf_seq [254; 254] buffer) as [start|]; [ | reflexivity ].
  destruct (buf_indexOf 253 (start + 2) buffer) as [e|] eqn:E;
    [ | reflexivity ].
  apply buf_indexOf_found in E.
  apply parse_loop_fuel; rewrite length_skipn; lia.
Qed.

(** Bytes without a preamble in front of a chunk are dropped without a
    trace, unless they end in the first half of a preamble that the chunk
    completes. *)
Lemma parse_skip_prefix x y s :
  buf_indexOf_seq [254; 254] x = None ->
  ~ splits_preamble x y ->
  parse (x ++ y) s = parse y s.
Proof.
  intros Hn Hj. rewrite (parse_unfold (x ++ y)), (parse_unfold y).
  rewrite preamble_app_none by assumption.
  destruct (buf_indexOf_seq [254; 254] y) as [st|]; simpl; [ | reflexivity ].
  replace (List.length x + st + 2)%nat with (List.length x + (st + 2))%nat by lia.
  rewrite buf_indexOf_app_beyond.
  destruct (buf_indexOf 253 (st + 2) y) as [e|] eqn:E; simpl.
  - apply buf_indexOf_found in E.
    replace (List.length x + e + 1)%nat with (List.length x + (e + 1))%nat by lia.
    rewrite skipn_app_beyond. unfold subarray.
    rewrite skipn_app_beyond.
    replace (List.length x + (e + 1) - (List.length x + st))%nat
      with (e + 1 - st)%nat by lia.
    reflexivity.
  - rewrite skipn_app_beyond. reflexivity.
Qed.

(** A buffer that holds the start of a frame and no terminator yet. *)
Lemma parse_resume x y s st :
  buf_indexOf_seq [254; 254] x = Some st ->
  buf_indexOf 253 (st + 2) x = None ->
  parse (x ++ y) s = parse (skipn st x ++ y) s.
Proof.
  intros Hst Hnone. destruct (preamble_found _ _ Hst) as [Hlen Hsw].
  rewrite (parse_unfold (x ++ y)), (parse_unfold (skipn st x ++ y)).
  rewrite (preamble_app_found _ y _ Hst).
  assert (H0 : buf_indexOf_seq [254; 254] (skipn st x ++ y) = Some O).
  { apply preamble_at_head. apply starts_with_app. exact Hsw. }
  rewrite H0.
  rewrite buf_indexOf_app_none by (assumption || lia).
  assert (H2 : buf_indexOf 253 (0 + 2) (skipn st x ++ y)
               = option_map (Nat.add (List.length (skipn st x)))
                            (find_byte 253 y)).
  { apply buf_indexOf_app_none; [ rewrite length_skipn; lia | ].
    unfold buf_indexOf in *. rewrite skipn_skipn.
    replace (0 + 2 + st)%nat with (st + 2)%nat by lia.
    destruct (find_byte 253 (skipn (st + 2) x)); [ discriminate | reflexivity ]. }
  rewrite H2. rewrite length_skipn.
  destruct (find_byte 253 y) as [j|]; simpl.
  - unfold subarray. rewrite skipn_0.
    rewrite (skipn_app_within st) by lia.
    replace (List.length x + j + 1)%nat with (List.length x + (j + 1))%nat by lia.
    rewrite skipn_app_beyond.
    replace (List.length x - st + j + 1)%nat
      with (List.length (skipn st x) + (j + 1))%nat
      by (rewrite length_skipn; lia).
    rewrite skipn_app_beyond.
    replace (List.length x + (j + 1) - st)%nat
      with (List.length (skipn st x) + (j + 1) - 0)%nat
      by (rewrite length_skipn; lia).
    reflexivity.
  - rewrite skipn_app_within by lia. reflexivity.
Qed.

(** Feeding [x] and then [y] is feeding [x ++ y]. *)
Lemma parse_app n : forall x y s,
  (List.length x <= n)%nat ->
  ~ splits_preamble x y ->
  parse (x ++ y) s = parse (fst (parse x s) ++ y) (snd (parse x s)).
Proof.
  induction n as [|n IH]; intros x y s Hlen Hj.
  - destruct x; [ | simpl in Hlen; lia ]. reflexivity.
  - rewrite (parse_unfold x).
    destruct (buf_indexOf_seq [254; 254] x) as [st|] eqn:Hst.
    + destruct (buf_indexOf 253 (st + 2) x) as [e|] eqn:He.
      * pose proof (buf_indexOf_found _ _ _ _ He) as Hb.
        rewrite <- IH.
        -- rewrite (parse_unfold (x ++ y)).
           rewrite (preamble_app_found _ y _ Hst).
           rewrite (buf_indexOf_app_found _ _ y _ _ He).
           rewrite skipn_app_within by lia.
           unfold subarray. rewrite skipn_app_within by lia.
           rewrite firstn_app_within by (rewrite length_skipn; lia).
           reflexivity.
        -- rewrite length_skipn. lia.
        -- intros H. apply Hj. eapply splits_preamble_skipn. exact H.
      * simpl. apply parse_resume; assumption.
    + simpl. apply parse_skip_prefix; assumption.
Qed.
End IcomBuffer.

(** ** Cutting text commands out of the buffer *)

Lemma append_assoc (x y z : string) :
  ((x ++ y) ++ z)%string = (x ++ (y ++ z))%string.
Proof. induction x as [|a x IH]; simpl; [ reflexivity | rewrite IH; reflexivity ]. Qed.

Lemma append_empty_r (x : string) : (x ++ "")%string = x.
Proof. induction x as [|a x IH]; simpl; [ reflexivity | rewrite IH; reflexivity ]. Qed.

Lemma len_append (x y : string) : len (x ++ y) = (len x + len y)%nat.
Proof. unfold len. induction x as [|a x IH]; simpl; [ reflexivity | rewrite IH; reflexivity ]. Qed.

Lemma indexOf_found c s : forall i, indexOf c s = Some i -> (i < len s)%nat.
Proof.
  unfold len. induction s as [|a s IH]; intros i; simpl; [ discriminate | ].
  destruct (Ascii.eqb a c).
  - intros [= <-]. lia.
  - destruct (indexOf c s) as [j|]; simpl; [ | discriminate ].
    intros [= <-]. specialize (IH j eq_refl). lia.
Qed.

Lemma indexOf_app c x y :
  indexOf c (x ++ y)
  = match indexOf c x with
    | Some i => Some i
    | None => option_map (Nat.add (len x)) (indexOf c y)
    end.
Proof.
  unfold len. induction x as [|a x IH]; simpl.
  - destruct (indexOf c y); reflexivity.
  - destruct (Ascii.eqb a c); [ reflexivity | ].
    rewrite IH. destruct (indexOf c x); [ reflexivity | ].
    destruct (indexOf c y); reflexivity.
Qed.

Lemma len_sdrop n : forall s, len (sdrop n s) = (len s - n)%nat.
Proof.
  unfold len. induction n as [|n IH]; intros [|a s]; simpl; auto.
Qed.

Lemma stake_all n : forall s, (len s <= n)%nat -> stake n s = s.
Proof.
  unfold len. induction n as [|n IH]; intros [|a s] H; simpl in *; auto; try lia.
  rewrite IH by lia. reflexivity.
Qed.

Lemma stake_min n : forall s, stake (Nat.min n (len s)) s = stake n s.
Proof.
  unfold len. induction n as [|n IH]; intros [|a s]; simpl; auto.
  rewrite IH. reflexivity.
Qed.

Lemma sdrop_min n : forall s, sdrop (Nat.min n (len s)) s = sdrop n s.
Proof.
  unfold len. induction n as [|n IH]; intros [|a s]; simpl; auto.
Qed.

Lemma stake_app_within n : forall x y,
  (n <= len x)%nat -> stake n (x ++ y) = stake n x.
Proof.
  unfold len. induction n as [|n IH]; intros x y H; [ reflexivity | ].
  destruct x as [|a x]; simpl in *; [ lia | ].
  rewrite IH by lia. reflexivity.
Qed.

Lemma sdrop_app_within n : forall x y,
  (n <= len x)%nat -> sdrop n (x ++ y) = (sdrop n x ++ y)%string.
Proof.
  unfold len. induction n as [|n IH]; intros x y H; [ reflexivity | ].
  destruct x as [|a x]; simpl in *; [ lia | ].
  apply IH. lia.
Qed.

Lemma substring_head s b : substring s 0 b = stake b s.
Proof.
  unfold substring. rewrite Nat.min_0_l, Nat.max_0_l, Nat.sub_0_r. simpl.
  apply stake_min.
Qed.

Lemma substring_tail s a : substring_from s a = sdrop a s.
Proof.
  unfold substring_from, substring. fold (len s).
  rewrite Nat.min_id.
  replace (Nat.min (Nat.min a (len s)) (len s)) with (Nat.min a (len s)) by lia.
  replace (Nat.max (Nat.min a (len s)) (len s)) with (len s) by lia.
  rewrite sdrop_min. apply stake_all. rewrite len_sdrop. lia.
Qed.

Lemma extract_S k buffer commands :
  extract (S k) buffer commands
  = match indexOf ";"%char buffer with
    | Some idx =>
        extract k (sdrop (idx + 1) buffer) (commands ++ [stake (idx + 1) buffer])
    | None => (commands, buffer)
    end.
Proof.
  cbn [extract]. destruct (indexOf ";"%char buffer); [ | reflexivity ].
  rewrite substring_head, substring_tail. reflexivity.
Qed.

(** The loop never runs out of the fuel [parseResponse] gives it. *)
Lemma extract_fuel k1 : forall k2 buffer commands,
  (len buffer < k1)%nat -> (len buffer < k2)%nat ->
  extract k1 buffer commands = extract k2 buffer commands.
Proof.
  induction k1 as [|k1 IH]; intros [|k2] buffer commands H1 H2; try lia.
  rewrite !extract_S.
  destruct (indexOf ";"%char buffer) as [idx|] eqn:E; [ | reflexivity ].
  apply indexOf_found in E.
  apply IH; rewrite len_sdrop; lia.
Qed.

Lemma extract_commands k : forall buffer commands,
  extract k buffer commands
  = (commands ++ fst (extract k buffer []), snd (extract k buffer [])).
Proof.
  induction k as [|k IH]; intros buffer commands.
  - simpl. rewrite app_nil_r. reflexivity.
  - rewrite !extract_S.
    destruct (indexOf ";"%char buffer) as [idx|].
    + rewrite IH. rewrite (IH _ ([] ++ _)). simpl.
      rewrite <- app_assoc. reflexivity.
    + simpl. rewrite app_nil_r. reflexivity.
Qed.

Local Abbreviation cut b := (extract (S (len b)) b []).

Lemma cut_unfold b :
  cut b
  = match indexOf ";"%char b with
    | Some idx =>
        (stake (idx + 1) b :: fst (cut (sdrop (idx + 1) b)),
         snd (cut (sdrop (idx + 1) b)))
    | None => ([], b)
    end.
Proof.
  rewrite extract_S.
  destruct (indexOf ";"%char b) as [idx|] eqn:E; [ | reflexivity ].
  apply indexOf_found in E.
  rewrite extract_commands. simpl.
  rewrite (extract_fuel (len b) (S (len (sdrop (idx + 1) b))));
    [ reflexivity | | ]; rewrite len_sdrop; lia.
Qed.

(** Cutting [x ++ y] is cutting [x] and then what [x] left over, followed
    by [y]. *)
Lemma cut_app n : forall x y,
  (len x <= n)%nat ->
  cut (x ++ y)
  = (fst (cut x) ++ fst (cut (snd (cut x) ++ y)),
     snd (cut (snd (cut x) ++ y))).
Proof.
  induction n as [|n IH]; intros x y Hlen.
  - destruct x; [ | unfold len in Hlen; simpl in Hlen; lia ].
    change (cut ("" ++ y)) with (cut y). change (cut "") with (@nil string, "").
    cbn [fst snd app append]. destruct (cut y); reflexivity.
  - rewrite (cut_unfold x).
    destruct (indexOf ";"%char x) as [idx|] eqn:E.
    + pose proof (indexOf_found _ _ _ E) as Hidx.
      rewrite (cut_unfold (x ++ y)), indexOf_app, E.
      rewrite stake_app_within, sdrop_app_within by lia.
      rewrite IH by (rewrite len_sdrop; lia).
      reflexivity.
    + cbn [fst snd app]. destruct (cut (x ++ y)); reflexivity.
Qed.

(** Both text decoders have this shape. *)
Lemma text_split {St : Type} (handle : St -> string -> St) x y buffer s :
  (let '(commands, rest) := cut (buffer ++ (x ++ y)) in
   (rest, fold_left handle commands s))
  = (let '(b1, s1) :=
       (let '(commands, rest) := cut (buffer ++ x) in
        (rest, fold_left handle commands s)) in
     let '(commands, rest) := cut (b1 ++ y) in
     (rest, fold_left handle commands s1)).
Proof.
  rewrite <- append_assoc.
  rewrite (cut_app (len (buffer ++ x)) (buffer ++ x) y) by lia.
  destruct (cut (buffer ++ x)) as [c1 r1]. cbn [fst snd].
  destruct (cut (r1 ++ y)) as [c2 r2]. cbn [fst snd].
  rewrite fold_left_app. reflexivity.
Qed.

(** ** Partial delivery *)

Lemma icom_parseResponse_bytes {St : Type} (upd : prop -> value -> St -> St)
    x buffer s :
  IcomProtocol.parseResponse upd (IcomProtocol.Bytes x) buffer s
  = IcomProtocol.parse_loop upd (S (List.length (buffer ++ x))) (buffer ++ x) s.
Proof. reflexivity. Qed.

Lemma icom_split {St : Type} (upd : prop -> value -> St -> St) x y buffer s :
  ~ splits_preamble (buffer ++ x) y ->
  IcomProtocol.parseResponse upd (IcomProtocol.Bytes (x ++ y)) buffer s
  = let '(b1, s1) :=
      IcomProtocol.parseResponse upd (IcomProtocol.Bytes x) buffer s in
    IcomProtocol.parseResponse upd (IcomProtocol.Bytes y) b1 s1.
Proof.
  intros Hj. rewrite !icom_parseResponse_bytes.
  rewrite app_assoc.
  rewrite (parse_app upd (List.length (buffer ++ x)) (buffer ++ x) y s)
    by (lia || exact Hj).
  destruct (IcomProtocol.parse_loop upd _ (buffer ++ x) s) as [b1 s1].
  reflexivity.
Qed.

(** C3, as the code has it.  Feeding a decoder [x] and then [y] leaves the
    buffer and the store (hence the sequence of reports) exactly as feeding
    it [x ++ y] at once does: for the Yaesu and the Kenwood decoder at every
    cut, and for the Icom decoder at every cut that does not separate the
    two [0xFE] bytes of a preamble. *)
Theorem split_delivery :
  (forall (St : Type) (upd : prop -> value -> St -> St) x y buffer s,
     YaesuProtocol.parseResponse upd (x ++ y) buffer s
     = let '(b1, s1) := YaesuProtocol.parseResponse upd x buffer s in
       YaesuProtocol.parseResponse upd y b1 s1) /\
  (forall (St : Type) (upd : prop -> value -> St -> St) x y buffer s,
     KenwoodProtocol.parseResponse upd (x ++ y) buffer s
     = let '(b1, s1) := KenwoodProtocol.parseResponse upd x buffer s in
       KenwoodProtocol.parseResponse upd y b1 s1) /\
  (forall (St : Type) (upd : prop -> value -> St -> St) x y buffer s,
     ~ splits_preamble (buffer ++ x) y ->
     IcomProtocol.parseResponse upd (IcomProtocol.Bytes (x ++ y)) buffer s
     = let '(b1, s1) :=
         IcomProtocol.parseResponse upd (IcomProtocol.Bytes x) buffer s in
       IcomProtocol.parseResponse upd (IcomProtocol.Bytes y) b1 s1).
Proof.
  split; [ | split ].
  - intros. unfold YaesuProtocol.parseResponse. apply text_split.
  - intros. unfold KenwoodProtocol.parseResponse. apply text_split.
  - intros. apply icom_split. assumption.
Qed.

Lemma split_delivery_witness :
  IcomProtocol.parseResponse record_report
    (IcomProtocol.Bytes ([254; 254; 224] ++ [148; 3; 0; 64; 7; 20; 0; 253]))
    [] []
  = let '(b1, s1) :=
      IcomProtocol.parseResponse record_report
        (IcomProtocol.Bytes [254; 254; 224]) [] [] in
    IcomProtocol.parseResponse record_report
      (IcomProtocol.Bytes [148; 3; 0; 64; 7; 20; 0; 253]) b1 s1.
Proof.
  apply (proj2 (proj2 split_delivery)).
  intros (x & y & _ & H). discriminate H.
Defined.

(** C3 as the specification words it fails for the Icom decoder: a frequency
    report delivered in one piece is decoded; the same bytes cut between
    the two bytes of the preamble are dropped. *)
Lemma split_inside_preamble_loses_frame :
  IcomProtocol.parseResponse record_report
    (IcomProtocol.Bytes ([254] ++ [254; 224; 148; 3; 0; 64; 7; 20; 0; 253]))
    [] []
  = ([], [(Pfreq, VNum 14074000)]) /\
  (let '(b1, s1) :=
     IcomProtocol.parseResponse record_report (IcomProtocol.Bytes [254]) [] [] in
   IcomProtocol.parseResponse record_report
     (IcomProtocol.Bytes [254; 224; 148; 3; 0; 64; 7; 20; 0; 253]) b1 s1)
  = ([], []).
Proof. split; vm_compute; reflexivity. Qed.

(** ** Frames for somebody else *)

Lemma find_byte_absent b l : ~ In b l -> find_byte b l = None.
Proof.
  induction l as [|a l IH]; intros H; simpl; [ reflexivity | ].
  destruct (a =? b) eqn:E.
  - apply Z.eqb_eq in E. exfalso. apply H. left. exact E.
  - rewrite IH; [ reflexivity | ]. intros Hin. apply H. right. exact Hin.
Qed.

Lemma foreign_frame_alone {St : Type} (upd : prop -> value -> St -> St)
    (to : Z) (rest : list Z) (s : St) :
  to <> 224 -> to <> 253 -> ~ In 253 rest ->
  IcomProtocol.parse_loop upd
    (S (List.length (254 :: 254 :: to :: rest ++ [253])))
    (254 :: 254 :: to :: rest ++ [253]) s
  = ([], s).
Proof.
  intros Hto Hfd Hrest.
  set (frame := 254 :: 254 :: to :: rest ++ [253]).
  assert (Hlen : List.length frame = (List.length rest + 4)%nat).
  { unfold frame. simpl. rewrite length_app. simpl. lia. }
  rewrite parse_unfold.
  assert (H0 : buf_indexOf_seq [254; 254] frame = Some O)
    by (apply preamble_at_head; reflexivity).
  rewrite H0.
  assert (He : buf_indexOf 253 (0 + 2) frame = Some (List.length rest + 3)%nat).
  { unfold buf_indexOf, frame. cbn [Nat.add skipn find_byte].
    destruct (to =? 253) eqn:E; [ apply Z.eqb_eq in E; contradiction | ].
    rewrite find_byte_app, (find_byte_absent _ _ Hrest). simpl.
    f_equal. lia. }
  rewrite He.
  assert (Hframe : subarray frame 0 (List.length rest + 3 + 1) = frame).
  { unfold subarray. rewrite skipn_0. apply firstn_all2. lia. }
  rewrite Hframe. rewrite skipn_all2 by lia.
  assert (Hh : IcomProtocol.handle upd frame s = s).
  { unfold IcomProtocol.handle.
    destruct (List.length frame <? 6)%nat; [ reflexivity | ].
    unfold frame. cbn [nth].
    destruct (to =? IcomProtocol.controllerAddr) eqn:E; [ | reflexivity ].
    apply Z.eqb_eq in E. contradiction. }
  rewrite Hh. reflexivity.
Qed.

(** C8. A complete CI-V frame (preamble, destination, further bytes, and
    [0xFD] as its first and only terminator) whose destination is not the
    controller address [0xE0] yields no report: fed to a decoder with an empty
    buffer it leaves the store as it was and the buffer empty, and bytes
    that follow it are decoded as if the frame had not been there. *)
Theorem foreign_frame_discarded (St : Type) (upd : prop -> value -> St -> St)
    (to : Z) (rest after : list Z) (s : St) :
  to <> 224 -> to <> 253 -> ~ In 253 rest ->
  IcomProtocol.parseResponse upd
    (IcomProtocol.Bytes (254 :: 254 :: to :: rest ++ [253])) [] s
  = ([], s) /\
  IcomProtocol.parseResponse upd
    (IcomProtocol.Bytes ((254 :: 254 :: to :: rest ++ [253]) ++ after)) [] s
  = IcomProtocol.parseResponse upd (IcomProtocol.Bytes after) [] s.
Proof.
  intros Hto Hfd Hrest.
  assert (H1 : IcomProtocol.parseResponse upd
                 (IcomProtocol.Bytes (254 :: 254 :: to :: rest ++ [253])) [] s
               = ([], s)).
  { rewrite icom_parseResponse_bytes. cbn [app].
    apply foreign_frame_alone; assumption. }
  split; [ exact H1 | ].
  rewrite icom_split, H1; [ reflexivity | ].
  intros (x & y & Hx & _). cbn [app] in Hx.
  change (254 :: 254 :: to :: rest ++ [253])
    with ((254 :: 254 :: to :: rest) ++ [253]) in Hx.
  apply app_inj_tail in Hx. destruct Hx as [_ Hx]. discriminate Hx.
Qed.

Lemma foreign_frame_discarded_witness :
  IcomProtocol.parseResponse updateState
    (IcomProtocol.Bytes (254 :: 254 :: 0 :: [148; 3; 0; 64; 7; 20; 0] ++ [253]))
    [] quiet_world
  = ([], quiet_world).
Proof.
  apply (proj1 (foreign_frame_discarded World updateState 0
                  [148; 3; 0; 64; 7; 20; 0] [] quiet_world
                  ltac:(discriminate) ltac:(discriminate)
                  ltac:(simpl; intuition discriminate))).
Defined.

(** ** Printing and reading decimal digits *)

Lemma decimal_cases c :
  is_decimal c = true ->
  In c ["0"; "1"; "2"; "3"; "4"; "5"; "6"; "7"; "8"; "9"]%char.
Proof.
  destruct c as [[] [] [] [] [] [] [] []]; vm_compute; intros H;
    try discriminate H; auto 11.
Qed.

Lemma digit_char_decimal d :
  0 <= d < 10 ->
  is_decimal (digit_char d) = true /\ digit_value 10 (digit_char d) = Some d.
Proof.
  intros Hd.
  assert (Id : In d [0; 1; 2; 3; 4; 5; 6; 7; 8; 9]) by (simpl; lia).
  simpl in Id.
  repeat (destruct Id as [<-|Id]; [ split; reflexivity | ]).
  contradiction.
Qed.

Lemma all_decimal_append x y :
  all_decimal x = true -> all_decimal y = true ->
  all_decimal (x ++ y) = true.
Proof.
  induction x as [|c x IH]; simpl; auto.
  intros H Hy. apply andb_true_iff in H. destruct H as [-> H]. simpl. auto.
Qed.

Lemma all_decimal_zeros n : all_decimal (string_repeat "0"%char n) = true.
Proof. induction n as [|n IH]; simpl; auto. Qed.

Lemma digits_loop_decimal k : forall n acc,
  0 <= n -> all_decimal acc = true ->
  all_decimal (digits_loop k 10 n acc) = true.
Proof.
  induction k as [|k IH]; intros n acc Hn Hacc; cbn [digits_loop]; auto.
  assert (Hd : all_decimal (String (digit_char (n mod 10)) acc) = true).
  { cbn [all_decimal]. rewrite Hacc.
    destruct (digit_char_decimal (n mod 10)) as [-> _];
      [ apply Z.mod_pos_bound; lia | reflexivity ]. }
  destruct (n <? 10); [ exact Hd | ].
  apply IH; [ apply Z.div_pos; lia | exact Hd ].
Qed.

Lemma String__decimal hz : 0 <= hz -> all_decimal (String_ hz) = true.
Proof.
  intros H. unfold String_, toString.
  destruct (hz <? 0) eqn:E; [ apply Z.ltb_lt in E; lia | ].
  apply digits_loop_decimal; auto.
Qed.

Lemma digits_loop_S k radix n acc :
  digits_loop (S k) radix n acc
  = if n <? radix then String (digit_char (n mod radix)) acc
    else digits_loop k radix (n / radix) (String (digit_char (n mod radix)) acc).
Proof. reflexivity. Qed.

(** Reading back what [digits_loop] has printed, with an accumulator that
    has seen nothing but zeros so far. *)
Lemma parse_digits_loop k : forall n s a,
  0 <= n < 2 ^ Z.of_nat (S k) ->
  a = None \/ a = Some 0 ->
  parse_digits 10 (digits_loop (S k) 10 n s) a = parse_digits 10 s (Some n).
Proof.
  induction k as [|k IH]; intros n s a Hn Ha; rewrite digits_loop_S.
  - change (2 ^ Z.of_nat 1) with 2 in Hn.
    destruct (n <? 10) eqn:E; [ | apply Z.ltb_ge in E; lia ].
    rewrite Z.mod_small by lia. cbn [parse_digits].
    destruct (digit_char_decimal n) as [_ ->]; [ lia | ].
    destruct Ha as [-> | ->]; [ reflexivity | ]. f_equal.
  - destruct (n <? 10) eqn:E.
    + apply Z.ltb_lt in E.
      rewrite Z.mod_small by lia. cbn [parse_digits].
      destruct (digit_char_decimal n) as [_ ->]; [ lia | ].
      destruct Ha as [-> | ->]; [ reflexivity | ]. f_equal.
    + apply Z.ltb_ge in E.
      rewrite IH; [ | | exact Ha ].
      * cbn [parse_digits].
        destruct (digit_char_decimal (n mod 10)) as [_ ->];
          [ apply Z.mod_pos_bound; lia | ].
        f_equal. f_equal. pose proof (Z.div_mod n 10). lia.
      * rewrite (Nat2Z.inj_succ (S k)), Z.pow_succ_r in Hn by lia.
        split; [ apply Z.div_pos; lia | ].
        apply Z.div_lt_upper_bound; lia.
Qed.

Lemma parse_digits_String_ hz s a :
  0 <= hz -> a = None \/ a = Some 0 ->
  parse_digits 10 (String_ hz ++ s) a = parse_digits 10 s (Some hz).
Proof.
  intros H Ha. unfold String_, toString.
  destruct (hz <? 0) eqn:E; [ apply Z.ltb_lt in E; lia | ].
  unfold digits.
  assert (Hfuel : 0 <= hz < 2 ^ Z.of_nat (S (Z.to_nat (Z.log2 hz)))).
  { rewrite Nat2Z.inj_succ, Z2Nat.id by apply Z.log2_nonneg.
    destruct (Z.eq_dec hz 0) as [-> | Hz]; [ simpl; lia | ].
    pose proof (Z.log2_spec hz). lia. }
  revert Hfuel. generalize (Z.to_nat (Z.log2 hz)) as k. intros k Hfuel.
  assert (Happ : forall k n acc,
            (digits_loop k 10 n acc ++ s)%string
            = digits_loop k 10 n (acc ++ s)%string).
  { clear. induction k as [|k IH]; intros n acc; cbn [digits_loop]; auto.
    destruct (n <? 10); [ reflexivity | ]. rewrite IH. reflexivity. }
  rewrite Happ. apply parse_digits_loop; assumption.
Qed.

Lemma parse_digits_zeros n s a :
  a = None \/ a = Some 0 ->
  exists a', (a' = None \/ a' = Some 0) /\
    parse_digits 10 (string_repeat "0"%char n ++ s) a = parse_digits 10 s a'.
Proof.
  revert a; induction n as [|n IH]; intros a Ha.
  - exists a. split; [ exact Ha | reflexivity ].
  - cbn [string_repeat append parse_digits].
    change (digit_value 10 "0"%char) with (Some 0).
    destruct (IH (Some match a with Some a0 => a0 * 10 + 0 | None => 0 end))
      as (a' & Ha' & E).
    + right. destruct Ha as [-> | ->]; reflexivity.
    + exists a'. split; [ exact Ha' | exact E ].
Qed.

(** On a string of decimal digits [parseInt] finds no white space, no sign
    and no [0x] to take off. *)
Lemma parseInt_decimal s :
  all_decimal s = true -> parseInt s = parse_digits 10 s None.
Proof.
  assert (Hid : forall r, option_map (Z.mul 1) r = r)
    by (intros [z|]; simpl; [ destruct z | ]; reflexivity).
  destruct s as [|c s]; [ reflexivity | ].
  cbn [all_decimal]. intros H. apply andb_true_iff in H. destruct H as [Hc Hs].
  apply decimal_cases in Hc. simpl in Hc.
  destruct Hc as [<-|Hc].
  { destruct s as [|c2 s]; [ reflexivity | ].
    cbn [all_decimal] in Hs. apply andb_true_iff in Hs. destruct Hs as [Hc2 Hs].
    apply decimal_cases in Hc2. simpl in Hc2.
    repeat (destruct Hc2 as [<-|Hc2];
            [ unfold parseInt; cbn [skip_whitespace is_whitespace];
              apply Hid | ]).
    contradiction. }
  repeat (destruct Hc as [<-|Hc];
          [ unfold parseInt; cbn [skip_whitespace is_whitespace];
            apply Hid | ]).
  contradiction.
Qed.

Lemma len_string_repeat c n : len (string_repeat c n) = n.
Proof. unfold len. induction n as [|n IH]; simpl; auto. Qed.

(** The digit field of a set-frequency command: never shorter than the
    width, made of digits only, and read back by [parseInt] as the number
    that was printed, whatever its size. *)
Lemma padded_field hz width :
  0 <= hz ->
  let field := padStart (String_ hz) width "0"%char in
  all_decimal field = true /\
  (width <= len field)%nat /\
  parseInt field = Some hz.
Proof.
  intros H field. unfold field, padStart.
  assert (Hd : all_decimal
                 (string_repeat "0"%char (width - String.length (String_ hz))
                  ++ String_ hz) = true)
    by (apply all_decimal_append; [ apply all_decimal_zeros | apply String__decimal; exact H ]).
  split; [ exact Hd | split ].
  - rewrite len_append, len_string_repeat. unfold len. lia.
  - rewrite parseInt_decimal by exact Hd.
    destruct (parse_digits_zeros (width - String.length (String_ hz))
                (String_ hz) None) as (a' & Ha' & ->); [ left; reflexivity | ].
    rewrite <- (append_empty_r (String_ hz)).
    rewrite parse_digits_String_ by assumption. reflexivity.
Qed.

Lemma decimal_value c :
  is_decimal c = true -> exists d, digit_value 10 c = Some d /\ 0 <= d <= 9.
Proof.
  intros H. apply decimal_cases in H. simpl in H.
  repeat (destruct H as [<-|H];
          [ eexists; split; [ vm_compute; reflexivity | lia ] | ]).
  contradiction.
Qed.

(** A string of [n] digits reads as a number below [10^n]. *)
Lemma parse_digits_bound s : forall a,
  all_decimal s = true -> 0 <= a ->
  exists v, parse_digits 10 s (Some a) = Some v /\
            0 <= v < (a + 1) * 10 ^ Z.of_nat (len s).
Proof.
  unfold len. induction s as [|c s IH]; intros a Hd Ha.
  - exists a. split; [ reflexivity | simpl; lia ].
  - cbn [all_decimal] in Hd. apply andb_true_iff in Hd. destruct Hd as [Hc Hs].
    destruct (decimal_value c Hc) as (d & Hv & Hd).
    cbn [parse_digits]. rewrite Hv.
    destruct (IH (a * 10 + d) Hs) as (v & Hp & Hb); [ lia | ].
    exists v. split; [ exact Hp | ].
    cbn [String.length]. rewrite Nat2Z.inj_succ, Z.pow_succ_r by lia.
    assert (0 < 10 ^ Z.of_nat (String.length s)) by (apply Z.pow_pos_nonneg; lia).
    nia.
Qed.

Lemma parse_digits_fresh s :
  s <> EmptyString -> all_decimal s = true ->
  parse_digits 10 s None = parse_digits 10 s (Some 0).
Proof.
  destruct s as [|c s]; [ contradiction | ]. intros _ Hd.
  cbn [all_decimal] in Hd. apply andb_true_iff in Hd. destruct Hd as [Hc _].
  destruct (decimal_value c Hc) as (d & Hv & _).
  cbn [parse_digits]. rewrite Hv. reflexivity.
Qed.

(** A number of more digits than the width gets a longer field: nothing is
    cut off. *)
Lemma wide_field hz width :
  10 ^ Z.of_nat width <= hz ->
  (width < len (padStart (String_ hz) width "0"%char))%nat.
Proof.
  intros Hbig.
  assert (Hz : 0 <= hz) by (pose proof (Z.pow_pos_nonneg 10 (Z.of_nat width)); lia).
  destruct (padded_field hz width Hz) as (Hd & Hw & Hp).
  destruct (Nat.eq_dec (len (padStart (String_ hz) width "0"%char)) width) as [E|E];
    [ exfalso | lia ].
  rewrite parseInt_decimal in Hp by exact Hd.
  destruct (padStart (String_ hz) width "0"%char) as [|c f] eqn:Ef.
  - simpl in Hp. discriminate Hp.
  - rewrite parse_digits_fresh in Hp by (congruence || exact Hd).
    destruct (parse_digits_bound (String c f) 0 Hd) as (v & Hv & Hb); [ lia | ].
    rewrite Hv in Hp. injection Hp as ->. rewrite E in Hb. lia.
Qed.

(** ** Set-frequency commands *)

Lemma sdrop_all n : forall s, (len s <= n)%nat -> sdrop n s = EmptyString.
Proof.
  unfold len. induction n as [|n IH]; intros [|a s] H; simpl in *; auto; try lia.
  apply IH. lia.
Qed.

Lemma substring_ordered s a b :
  (a <= b <= len s)%nat -> substring s a b = stake (b - a) (sdrop a s).
Proof.
  intros H. unfold substring. fold (len s).
  rewrite (Nat.min_l a (len s)), (Nat.min_l b (len s)) by lia.
  rewrite Nat.max_r, Nat.min_l by lia. reflexivity.
Qed.

Lemma decimal_has_no_semicolon s :
  all_decimal s = true -> indexOf ";"%char s = None.
Proof.
  induction s as [|c s IH]; simpl; [ reflexivity | ].
  intros H. apply andb_true_iff in H. destruct H as [Hc Hs].
  rewrite (IH Hs).
  apply decimal_cases in Hc. simpl in Hc.
  repeat (destruct Hc as [<-|Hc]; [ reflexivity | ]). contradiction.
Qed.

(** The shape of a command ["FA<digits>;"] as the decoders see it. *)
Lemma own_frame_shape field :
  all_decimal field = true ->
  let cmd := ("FA" ++ field ++ ";")%string in
  extract (S (len cmd)) cmd [] = ([cmd], EmptyString) /\
  startsWith cmd "FA" = true /\
  len cmd = (len field + 3)%nat /\
  substring cmd 2 (len cmd - 1) = field.
Proof.
  intros Hd cmd.
  assert (Hlen : len cmd = (len field + 3)%nat).
  { unfold cmd. rewrite !len_append. unfold len. simpl. lia. }
  assert (Hidx : indexOf ";"%char cmd = Some (len field + 2)%nat).
  { unfold cmd. rewrite !indexOf_app, (decimal_has_no_semicolon _ Hd).
    simpl. f_equal. unfold len. simpl. lia. }
  assert (Hsw : startsWith cmd "FA" = true).
  { unfold startsWith, cmd. simpl. destruct (field ++ ";")%string; reflexivity. }
  split; [ | split; [ exact Hsw | split; [ exact Hlen | ] ] ].
  - rewrite cut_unfold, Hidx.
    rewrite stake_all, sdrop_all by lia. reflexivity.
  - rewrite substring_ordered by lia.
    unfold cmd at 2. cbn [append sdrop].
    replace (len cmd - 1 - 2)%nat with (len field) by lia.
    rewrite stake_app_within by lia. apply stake_all. lia.
Qed.

Lemma yaesu_reads_own_frame {St : Type} (upd : prop -> value -> St -> St)
    (hz : Z) (s : St) :
  0 < hz ->
  YaesuProtocol.parseResponse upd (YaesuProtocol.setFreqCmd hz) "" s
  = ("", upd Pfreq (VNum hz) s).
Proof.
  intros Hz.
  destruct (padded_field hz 9) as (Hd & Hw & Hp); [ lia | ].
  destruct (own_frame_shape _ Hd) as (Hcut & Hsw & Hlen & Hsub).
  unfold YaesuProtocol.parseResponse, YaesuProtocol.setFreqCmd.
  cbn [append]. cbn [append] in Hcut. rewrite Hcut. cbn [fold_left].
  unfold YaesuProtocol.handle.
  cbn [append] in Hsw, Hlen, Hsub. rewrite Hsw, Hsub, Hp.
  replace (11 <=? _)%nat with true by (symmetry; apply Nat.leb_le; lia).
  cbn [andb]. replace (0 <? hz) with true by (symmetry; apply Z.ltb_lt; lia).
  reflexivity.
Qed.

Lemma kenwood_reads_own_frame {St : Type} (upd : prop -> value -> St -> St)
    (hz : Z) (s : St) :
  0 < hz ->
  KenwoodProtocol.parseResponse upd (KenwoodProtocol.setFreqCmd hz) "" s
  = ("", upd Pfreq (VNum hz) s).
Proof.
  intros Hz.
  destruct (padded_field hz 11) as (Hd & Hw & Hp); [ lia | ].
  destruct (own_frame_shape _ Hd) as (Hcut & Hsw & Hlen & Hsub).
  unfold KenwoodProtocol.parseResponse, KenwoodProtocol.setFreqCmd.
  cbn [append]. cbn [append] in Hcut. rewrite Hcut. cbn [fold_left].
  unfold KenwoodProtocol.handle.
  cbn [append] in Hsw, Hlen, Hsub. rewrite Hsw, Hsub, Hp.
  replace (13 <=? _)%nat with true by (symmetry; apply Nat.leb_le; lia).
  cbn [andb]. replace (0 <? hz) with true by (symmetry; apply Z.ltb_lt; lia).
  reflexivity.
Qed.

Lemma icom_frame_length civAddr hz :
  List.length (IcomProtocol.setFreqCmd civAddr hz) = 11%nat.
Proof.
  unfold IcomProtocol.setFreqCmd, IcomProtocol._frame, Buffer_from,
    IcomProtocol._freqToBcd.
  rewrite length_map. cbn [app List.length].
  rewrite length_app, length_freq_loop. reflexivity.
Qed.

Lemma icom_keeps_ten_digits hz :
  0 <= hz ->
  IcomProtocol._bcdToFreq (IcomProtocol._freqToBcd hz) = hz mod 10000000000.
Proof.
  intros Hz. unfold IcomProtocol._bcdToFreq, IcomProtocol._freqToBcd.
  rewrite length_freq_loop. cbn [repeat List.length Nat.min].
  rewrite bcd_loop_freq_loop by (cbn; lia).
  change (100 ^ Z.of_nat 5) with 10000000000. lia.
Qed.

Lemma text_frame_length hz width :
  len ("FA" ++ padStart (String_ hz) width "0"%char ++ ";")
  = (len (padStart (String_ hz) width "0"%char) + 3)%nat.
Proof. rewrite !len_append. unfold len. simpl. lia. Qed.




(** ** What the command splitter returns *)

Lemma stake_sdrop n : forall s, (stake n s ++ sdrop n s)%string = s.
Proof.
  induction n as [|n IH]; intros [|a s]; simpl; auto.
  rewrite IH. reflexivity.
Qed.

Lemma len_stake n : forall s, (n <= len s)%nat -> len (stake n s) = n.
Proof.
  unfold len. induction n as [|n IH]; intros [|a s] H; simpl in *; auto; try lia.
  rewrite IH by lia. reflexivity.
Qed.

Lemma indexOf_stake c s : forall idx,
  indexOf c s = Some idx -> indexOf c (stake (idx + 1) s) = Some idx.
Proof.
  induction s as [|a s IH]; intros idx; simpl; [ discriminate | ].
  destruct (Ascii.eqb a c) eqn:E.
  - intros [= <-]. simpl. rewrite E. reflexivity.
  - destruct (indexOf c s) as [j|]; simpl; [ | discriminate ].
    intros [= <-]. simpl. rewrite E, (IH j eq_refl). reflexivity.
Qed.

Lemma cut_spec n : forall b,
  (len b <= n)%nat ->
  (join (fst (cut b)) ++ snd (cut b))%string = b /\
  indexOf ";"%char (snd (cut b)) = None /\
  Forall terminated (fst (cut b)).
Proof.
  induction n as [|n IH]; intros b Hlen; rewrite cut_unfold.
  - destruct b; [ | unfold len in Hlen; simpl in Hlen; lia ].
    simpl. auto.
  - destruct (indexOf ";"%char b) as [idx|] eqn:E; cbn [fst snd].
    + pose proof (indexOf_found _ _ _ E) as Hidx.
      destruct (IH (sdrop (idx + 1) b)) as (Hj & Hn & Hf);
        [ rewrite len_sdrop; lia | ].
      split; [ | split ].
      * cbn [join fold_right]. fold (join (fst (cut (sdrop (idx + 1) b)))).
        rewrite append_assoc, Hj. apply stake_sdrop.
      * exact Hn.
      * constructor; [ | exact Hf ].
        unfold terminated. rewrite (indexOf_stake _ _ _ E).
        rewrite len_stake by lia. f_equal. lia.
    + simpl. auto.
Qed.

Lemma cut_at_rest b :
  indexOf ";"%char b = None -> cut b = ([], b).
Proof. intros H. rewrite cut_unfold, H. reflexivity. Qed.

Lemma text_buffer_at_rest {St : Type} (handle : St -> string -> St)
    (chunk buffer : string) (s : St) :
  let r := (let '(commands, rest) := cut (buffer ++ chunk) in
            (rest, fold_left handle commands s)) in
  indexOf ";"%char (fst r) = None /\
  (let '(commands, rest) := cut (fst r ++ "") in
   (rest, fold_left handle commands (snd r))) = r.
Proof.
  destruct (cut_spec (len (buffer ++ chunk)) (buffer ++ chunk) (le_n _))
    as (_ & Hn & _).
  destruct (cut (buffer ++ chunk)) as [commands rest]. cbn [fst snd] in *.
  split; [ exact Hn | ].
  rewrite append_empty_r, (cut_at_rest _ Hn). reflexivity.
Qed.

(** X1. The splitter of the text dialects cuts the buffer after every [;]:
    the commands it returns, written one after the other and followed by
    what it leaves in the buffer, are the buffer it was given; every command
    ends in its only [;]; what is left holds no [;].  So after
    [parseResponse] the buffer of the Yaesu and of the Kenwood decoder never
    holds a complete command, and an empty chunk fed next changes neither
    the buffer nor the store. *)
Theorem extract_cuts_after_every_semicolon :
  (forall buffer : string,
     let '(commands, rest) := extract (S (len buffer)) buffer [] in
     (join commands ++ rest)%string = buffer /\
     indexOf ";"%char rest = None /\
     Forall terminated commands) /\
  (forall (St : Type) (upd : prop -> value -> St -> St) chunk buffer (s : St),
     let r := YaesuProtocol.parseResponse upd chunk buffer s in
     indexOf ";"%char (fst r) = None /\
     YaesuProtocol.parseResponse upd "" (fst r) (snd r) = r) /\
  (forall (St : Type) (upd : prop -> value -> St -> St) chunk buffer (s : St),
     let r := KenwoodProtocol.parseResponse upd chunk buffer s in
     indexOf ";"%char (fst r) = None /\
     KenwoodProtocol.parseResponse upd "" (fst r) (snd r) = r).
Proof.
  split; [ | split ].
  - intros buffer.
    pose proof (cut_spec (len buffer) buffer (le_n _)) as H.
    destruct (cut buffer) as [commands rest]. exact H.
  - intros. apply text_buffer_at_rest.
  - intros. apply text_buffer_at_rest.
Qed.

(** ** The CI-V buffer at rest *)

Section IcomRest.
Context {St : Type} (upd : prop -> value -> St -> St).

Local Abbreviation parse b s :=
  (IcomProtocol.parse_loop upd (S (List.length b)) b s).

Lemma parse_rest n : forall b s,
  (List.length b <= n)%nat ->
  awaiting_terminator (fst (parse b s)) /\
  (exists dropped, b = dropped ++ fst (parse b s)) /\
  parse (fst (parse b s)) (snd (parse b s)) = parse b s.
Proof.
  induction n as [|n IH]; intros b s Hlen; rewrite (parse_unfold upd b s).
  - destruct b; [ | simpl in Hlen; lia ].
    cbn. split; [ left; reflexivity | split; [ exists []; reflexivity | reflexivity ] ].
  - destruct (buf_indexOf_seq [254; 254] b) as [st|] eqn:Hst.
    + destruct (preamble_found _ _ Hst) as [Hl Hsw].
      destruct (buf_indexOf 253 (st + 2) b) as [e|] eqn:He.
      * pose proof (buf_indexOf_found _ _ _ _ He) as Hb.
        destruct (IH (skipn (e + 1) b)
                     (IcomProtocol.handle upd (subarray b st (e + 1)) s))
          as (Ha & (d & Hd) & Hi); [ rewrite length_skipn; lia | ].
        split; [ exact Ha | split; [ | exact Hi ] ].
        exists (firstn (e + 1) b ++ d).
        rewrite <- app_assoc, <- Hd. symmetry. apply firstn_skipn.
      * cbn [fst snd].
        assert (Hn : buf_indexOf 253 2 (skipn st b) = None).
        { unfold buf_indexOf in *. rewrite skipn_skipn.
          replace (2 + st)%nat with (st + 2)%nat by lia.
          destruct (find_byte 253 (skipn (st + 2) b)); [ discriminate | reflexivity ]. }
        split; [ right; split; assumption | split ].
        -- exists (firstn st b). symmetry. apply firstn_skipn.
        -- rewrite (parse_unfold upd (skipn st b) s).
           rewrite (preamble_at_head _ Hsw).
           change (0 + 2)%nat with 2%nat. rewrite Hn. reflexivity.
    + cbn. split; [ left; reflexivity | split; [ | reflexivity ] ].
      exists b. rewrite app_nil_r. reflexivity.
Qed.

(** A buffer that holds exactly one frame. *)
Lemma lone_frame (body : list Z) (s : St) :
  ~ In 253 body ->
  parse (254 :: 254 :: body ++ [253]) s
  = ([], IcomProtocol.handle upd (254 :: 254 :: body ++ [253]) s).
Proof.
  intros Hbody.
  set (frame := 254 :: 254 :: body ++ [253]).
  assert (Hlen : List.length frame = (List.length body + 3)%nat).
  { unfold frame. simpl. rewrite length_app. simpl. lia. }
  rewrite parse_unfold.
  assert (H0 : buf_indexOf_seq [254; 254] frame = Some O)
    by (apply preamble_at_head; reflexivity).
  rewrite H0.
  assert (He : buf_indexOf 253 (0 + 2) frame = Some (List.length body + 2)%nat).
  { unfold buf_indexOf, frame. cbn [Nat.add skipn].
    rewrite find_byte_app, (find_byte_absent _ _ Hbody). simpl.
    f_equal. lia. }
  rewrite He.
  assert (Hframe : subarray frame 0 (List.length body + 2 + 1) = frame).
  { unfold subarray. rewrite skipn_0. apply firstn_all2. lia. }
  rewrite Hframe. rewrite skipn_all2 by lia. reflexivity.
Qed.
End IcomRest.

(** X2. After [parseResponse] the buffer of the Icom decoder is at rest: it
    is empty, or it begins with the preamble [FE FE] and holds no [FD] after
    it.  It is the tail of the bytes the decoder had (nothing is invented
    or reordered), and an empty chunk fed next changes neither the buffer
    nor the store. *)
Theorem icom_buffer_at_rest (St : Type) (upd : prop -> value -> St -> St)
    (c : IcomProtocol.chunk) (buffer : list Z) (s : St) :
  let r := IcomProtocol.parseResponse upd c buffer s in
  awaiting_terminator (fst r) /\
  (exists dropped, buffer ++ IcomProtocol.chunk_bytes c = dropped ++ fst r) /\
  IcomProtocol.parseResponse upd (IcomProtocol.Bytes []) (fst r) (snd r) = r.
Proof.
  destruct (parse_rest upd (List.length (buffer ++ IcomProtocol.chunk_bytes c))
              (buffer ++ IcomProtocol.chunk_bytes c) s (le_n _))
    as (Ha & Hd & Hi).
  change (IcomProtocol.parse_loop upd
            (S (List.length (buffer ++ IcomProtocol.chunk_bytes c)))
            (buffer ++ IcomProtocol.chunk_bytes c) s)
    with (IcomProtocol.parseResponse upd c buffer s) in *.
  cbv zeta. split; [ exact Ha | split; [ exact Hd | ] ].
  rewrite icom_parseResponse_bytes, app_nil_r. exact Hi.
Qed.

(** ** Packed decimal, the other way round *)

Lemma digits_byte_is_bcd hi lo :
  0 <= hi < 10 -> 0 <= lo < 10 ->
  is_bcd (Z.lor (Z.shiftl hi 4) lo mod 256) = true.
Proof.
  intros Hh Hl.
  assert (Ih : In hi [0; 1; 2; 3; 4; 5; 6; 7; 8; 9]) by (simpl; lia).
  assert (Il : In lo [0; 1; 2; 3; 4; 5; 6; 7; 8; 9]) by (simpl; lia).
  simpl in Ih, Il.
  repeat (destruct Ih as [<-|Ih];
          [ repeat (destruct Il as [<-|Il]; [ reflexivity | ]);
            contradiction | ]).
  contradiction.
Qed.

Lemma Forall_buf_set (P : Z -> Prop) v : forall i buf,
  P (v mod 256) -> Forall P buf -> Forall P (buf_set i v buf).
Proof.
  intros i buf Hv H. revert i.
  induction H as [|h t Hh Ht IH]; intros [|i]; simpl; auto.
Qed.

Lemma freq_loop_is_bcd n : forall i buf f,
  0 <= f ->
  Forall (fun b => is_bcd b = true) buf ->
  Forall (fun b => is_bcd b = true) (IcomProtocol.freq_loop n i buf f).
Proof.
  induction n as [|n IH]; intros i buf f Hf Hbuf; cbn [IcomProtocol.freq_loop];
    [ exact Hbuf | ].
  apply IH; [ apply Z.div_pos; [ apply Z.div_pos | ]; lia | ].
  apply Forall_buf_set; [ | exact Hbuf ].
  rewrite !Z.rem_mod_nonneg by (try apply Z.div_pos; lia).
  apply digits_byte_is_bcd; apply Z.mod_pos_bound; lia.
Qed.

Lemma freqToBcd_is_bcd hz :
  0 <= hz -> Forall (fun b => is_bcd b = true) (IcomProtocol._freqToBcd hz).
Proof.
  intros H. apply freq_loop_is_bcd; [ exact H | ].
  repeat constructor.
Qed.

Lemma is_bcd_bounds b :
  is_bcd b = true ->
  0 <= b < 256 /\ 0 <= Z.land b 15 < 10 /\ 0 <= Z.land (Z.shiftr b 4) 15 < 10 /\
  b <> 253 /\ Z.lor (Z.shiftl (Z.land (Z.shiftr b 4) 15) 4) (Z.land b 15) = b.
Proof.
  unfold is_bcd. intros H.
  apply andb_true_iff in H. destruct H as [H H4].
  apply andb_true_iff in H. destruct H as [H H3].
  apply andb_true_iff in H. destruct H as [H1 H2].
  apply Z.leb_le in H1. apply Z.ltb_lt in H2.
  assert (Hn : exists n : nat, b = Z.of_nat n /\ (n < 256)%nat)
    by (exists (Z.to_nat b); lia).
  destruct Hn as (n & -> & Hn).
  do 256 (destruct n as [|n];
          [ vm_compute in H3, H4; try discriminate H3; try discriminate H4;
            vm_compute; repeat split; intros; discriminate | ]).
  lia.
Qed.

Lemma skipn_cons_nth (data : list Z) : forall i,
  (skipn i data = [] /\ nth i data 0 = 0) \/
  skipn i data = nth i data 0 :: skipn (S i) data.
Proof.
  induction data as [|a data IH]; intros [|i]; simpl; auto.
Qed.

(** The loop of [_bcdToFreq] adds up the digits of the bytes it visits. *)
Lemma bcd_loop_value n : forall i data acc mult,
  IcomProtocol.bcd_loop n i data acc mult
  = acc + mult * bcd_value (firstn n (skipn i data)).
Proof.
  induction n as [|n IH]; intros i data acc mult;
    cbn [IcomProtocol.bcd_loop firstn].
  - simpl. lia.
  - rewrite IH.
    destruct (skipn_cons_nth data i) as [[E1 E2] | E].
    + rewrite E1, E2. rewrite skipn_all2.
      * rewrite firstn_nil. simpl. lia.
      * apply skipn_all_iff in E1. lia.
    + rewrite E. cbn [firstn bcd_value]. lia.
Qed.

Lemma bcdToFreq_value data :
  IcomProtocol._bcdToFreq data = bcd_value (firstn 5 data).
Proof.
  unfold IcomProtocol._bcdToFreq. rewrite bcd_loop_value, skipn_0.
  replace (firstn (Nat.min (List.length data) 5) data) with (firstn 5 data);
    [ lia | ].
  destruct (Nat.le_ge_cases (List.length data) 5) as [H|H].
  - rewrite Nat.min_l by exact H. rewrite !firstn_all2 by lia. reflexivity.
  - rewrite Nat.min_r by exact H. reflexivity.
Qed.

Lemma bcd_value_nonneg data :
  Forall (fun b => is_bcd b = true) data -> 0 <= bcd_value data.
Proof.
  induction 1 as [|b t Hb Ht IH]; cbn [bcd_value]; [ lia | ].
  destruct (is_bcd_bounds b Hb) as (_ & H1 & H2 & _). lia.
Qed.

Lemma firstn_buf_set v : forall i buf,
  (i < List.length buf)%nat ->
  firstn (S i) (buf_set i v buf) = firstn i buf ++ [v mod 256].
Proof.
  induction i as [|i IH]; intros buf H; destruct buf as [|h t];
    simpl in H; try lia.
  - reflexivity.
  - cbn [buf_set]. rewrite (firstn_cons (S i)), (firstn_cons i).
    rewrite IH by lia. reflexivity.
Qed.

Lemma skipn_buf_set v : forall i j buf,
  (i < j)%nat -> skipn j (buf_set i v buf) = skipn j buf.
Proof.
  induction i as [|i IH]; intros [|j] [|h t] H; simpl; try lia; auto.
  apply IH. lia.
Qed.

(** The loop of [_freqToBcd] writes back the bytes whose digits it reads. *)
Lemma freq_loop_writes l : forall i buf,
  Forall (fun b => is_bcd b = true) l ->
  (i + List.length l <= List.length buf)%nat ->
  IcomProtocol.freq_loop (List.length l) i buf (bcd_value l)
  = firstn i buf ++ l ++ skipn (i + List.length l) buf.
Proof.
  induction l as [|b t IH]; intros i buf Hl Hlen.
  - simpl. rewrite Nat.add_0_r. symmetry. apply firstn_skipn.
  - inversion Hl as [|? ? Hb Ht]; subst.
    destruct (is_bcd_bounds b Hb) as (Hb1 & Hlo & Hhi & _ & Hpack).
    pose proof (bcd_value_nonneg t Ht) as Hv.
    cbn [List.length IcomProtocol.freq_loop bcd_value].
    set (lo := Z.land b 15) in *. set (hi := Z.land (Z.shiftr b 4) 15) in *.
    set (r := bcd_value t) in *.
    assert (E1 : Z.rem (lo + 10 * hi + 100 * r) 10 = lo).
    { rewrite Z.rem_mod_nonneg by lia. Z.div_mod_to_equations. lia. }
    assert (E2 : (lo + 10 * hi + 100 * r) / 10 = hi + 10 * r)
      by (Z.div_mod_to_equations; lia).
    assert (E3 : Z.rem (hi + 10 * r) 10 = hi).
    { rewrite Z.rem_mod_nonneg by lia. Z.div_mod_to_equations. lia. }
    assert (E4 : (hi + 10 * r) / 10 = r) by (Z.div_mod_to_equations; lia).
    rewrite E1, E2, E3, E4, Hpack.
    unfold r. rewrite IH; [ | exact Ht | rewrite length_buf_set; simpl in Hlen; lia ].
    simpl in Hlen.
    rewrite firstn_buf_set by lia. rewrite skipn_buf_set by lia.
    rewrite Z.mod_small by lia. rewrite <- app_assoc. simpl.
    replace (i + S (List.length t))%nat with (S (i + List.length t)) by lia.
    reflexivity.
Qed.

(** X3. Encoding after decoding gives the bytes back: for every five bytes
    that each hold two decimal digits,
    [_freqToBcd (_bcdToFreq data) = data].  [_bcdToFreq] looks at the first
    five bytes only, and [_freqToBcd] produces nothing but bytes of two
    decimal digits for a frequency that is not negative. *)
Theorem bcd_decode_then_encode :
  (forall data,
     List.length data = 5%nat ->
     Forall (fun b => is_bcd b = true) data ->
     IcomProtocol._freqToBcd (IcomProtocol._bcdToFreq data) = data) /\
  (forall data,
     IcomProtocol._bcdToFreq data = IcomProtocol._bcdToFreq (firstn 5 data)) /\
  (forall hz,
     0 <= hz ->
     List.length (IcomProtocol._freqToBcd hz) = 5%nat /\
     Forall (fun b => is_bcd b = true) (IcomProtocol._freqToBcd hz)).
Proof.
  split; [ | split ].
  - intros data Hlen Hd.
    rewrite bcdToFreq_value, firstn_all2 by lia.
    unfold IcomProtocol._freqToBcd.
    pose proof (freq_loop_writes data 0 (repeat 0 5) Hd) as H.
    rewrite Hlen in H. rewrite H by (simpl; lia).
    simpl. apply app_nil_r.
  - intros data. rewrite !bcdToFreq_value, firstn_firstn. reflexivity.
  - intros hz Hz. split; [ | apply freqToBcd_is_bcd; exact Hz ].
    unfold IcomProtocol._freqToBcd. rewrite length_freq_loop. reflexivity.
Qed.

Lemma bcd_decode_then_encode_witness :
  IcomProtocol._freqToBcd (IcomProtocol._bcdToFreq [0; 64; 7; 20; 0])
  = [0; 64; 7; 20; 0].
Proof.
  apply (proj1 bcd_decode_then_encode [0; 64; 7; 20; 0]).
  - reflexivity.
  - repeat constructor.
Defined.

(** ** Frames the radio sends and frames the bridge sends *)

Lemma is_bcd_no_terminator data :
  Forall (fun b => is_bcd b = true) data -> ~ In 253 data.
Proof.
  induction 1 as [|b t Hb Ht IH]; intros Hin; [ contradiction | ].
  destruct Hin as [E | Hin]; [ | exact (IH Hin) ].
  destruct (is_bcd_bounds b Hb) as (_ & _ & _ & Hne & _). congruence.
Qed.

(** X4. A CI-V frame addressed to the controller that carries a frequency
    (command [03], or [00] in transceive mode) with the five packed bytes of
    [f], [0 < f <= 9,999,999,999], is decoded as one frequency report of
    exactly [f]; the buffer is empty afterwards.  The sender address is not
    looked at. *)
Theorem icom_frequency_frame (St : Type) (upd : prop -> value -> St -> St)
    (from cmd f : Z) (s : St) :
  0 < f <= 9999999999 ->
  from <> 253 ->
  cmd = 3 \/ cmd = 0 ->
  IcomProtocol.parseResponse upd
    (IcomProtocol.Bytes
       (254 :: 254 :: 224 :: from :: cmd :: IcomProtocol._freqToBcd f ++ [253]))
    [] s
  = ([], upd Pfreq (VNum f) s).
Proof.
  intros Hf Hfrom Hcmd.
  assert (Hrt : IcomProtocol._bcdToFreq (IcomProtocol._freqToBcd f) = f)
    by (rewrite icom_keeps_ten_digits by lia; apply Z.mod_small; lia).
  pose proof (freqToBcd_is_bcd f ltac:(lia)) as Hbcd.
  assert (Hlen : List.length (IcomProtocol._freqToBcd f) = 5%nat)
    by (unfold IcomProtocol._freqToBcd; rewrite length_freq_loop; reflexivity).
  revert Hrt Hbcd Hlen. generalize (IcomProtocol._freqToBcd f) as bytes.
  intros bytes Hrt Hbcd Hlen.
  rewrite icom_parseResponse_bytes. cbn [app].
  change (254 :: 254 :: 224 :: from :: cmd :: bytes ++ [253])
    with (254 :: 254 :: (224 :: from :: cmd :: bytes) ++ [253]).
  rewrite lone_frame.
  - f_equal.
    destruct bytes as [|b0 [|b1 [|b2 [|b3 [|b4 [|b5 bytes]]]]]];
      try discriminate Hlen.
    set (frame := 254 :: 254 :: (224 :: from :: cmd :: [b0; b1; b2; b3; b4]) ++ [253]).
    assert (E1 : Nat.ltb (List.length frame) 6 = false) by reflexivity.
    assert (E2 : nth 2 frame 0 = 224) by reflexivity.
    assert (E3 : nth 4 frame 0 = cmd) by reflexivity.
    assert (E4 : subarray frame 5 (List.length frame - 1) = [b0; b1; b2; b3; b4])
      by reflexivity.
    unfold IcomProtocol.handle. rewrite E1, E2, E3, E4.
    change (224 =? IcomProtocol.controllerAddr) with true. cbn [negb].
    rewrite Hrt.
    replace ((cmd =? 3) || (cmd =? 0)) with true
      by (destruct Hcmd; subst; reflexivity).
    change (Nat.leb 5 (List.length [b0; b1; b2; b3; b4])) with true. cbv iota.
    replace (0 <? f) with true by (symmetry; apply Z.ltb_lt; lia).
    reflexivity.
  - intros [E | [E | [E | Hin]]].
    + discriminate E.
    + congruence.
    + destruct Hcmd; subst; discriminate E.
    + exact (is_bcd_no_terminator _ Hbcd Hin).
Qed.

Lemma icom_frequency_frame_witness :
  IcomProtocol.parseResponse record_report
    (IcomProtocol.Bytes
       (254 :: 254 :: 224 :: 148 :: 3 :: IcomProtocol._freqToBcd 7100000 ++ [253]))
    [] []
  = ([], [(Pfreq, VNum 7100000)]).
Proof.
  apply (icom_frequency_frame (list report) record_report 148 3 7100000 []).
  - lia.
  - discriminate.
  - left. reflexivity.
Defined.

Lemma frame_shape civAddr payload :
  IcomProtocol._frame civAddr payload
  = 254 :: 254 :: (civAddr mod 256) :: (224 :: Buffer_from payload) ++ [253].
Proof.
  unfold IcomProtocol._frame, Buffer_from.
  cbn [app map]. rewrite map_app. reflexivity.
Qed.

Lemma own_frame_ignored {St : Type} (upd : prop -> value -> St -> St)
    (civAddr : Z) (payload : list Z) (s : St) :
  civAddr mod 256 <> 224 -> civAddr mod 256 <> 253 ->
  ~ In 253 (Buffer_from payload) ->
  IcomProtocol.parseResponse upd
    (IcomProtocol.Bytes (IcomProtocol._frame civAddr payload)) [] s
  = ([], s).
Proof.
  intros H1 H2 Hp. rewrite icom_parseResponse_bytes, frame_shape. cbn [app].
  apply (foreign_frame_alone upd (civAddr mod 256) (224 :: Buffer_from payload) s);
    try assumption.
  intros [E | Hin]; [ discriminate E | exact (Hp Hin) ].
Qed.

Lemma read_own_in {V : Type} (entries : list (string * V)) key v :
  read entries key = Own v -> In v (map snd entries).
Proof.
  unfold read.
  destruct (find _ (rev entries)) as [kv|] eqn:E.
  - intros [= <-]. apply find_some in E. destruct E as [E _].
    apply in_rev in E. apply in_map. exact E.
  - destruct (find _ Object_prototype_members); discriminate.
Qed.

Lemma icom_mode_code key c :
  read IcomMode.ICOM_MODES_REV key = Own (Some c) ->
  In c [0; 1; 2; 3; 4; 5; 6; 7; 8; 23].
Proof.
  intros E. apply read_own_in in E. vm_compute in E. simpl.
  repeat (destruct E as [E | E]; [ injection E as <-; auto 11 | ]).
  contradiction.
Qed.

Lemma icom_mode_frame civAddr mode fr :
  IcomMode.setModeCmd civAddr mode = Some fr ->
  exists c, fr = IcomProtocol._frame civAddr [6; c; 1] /\
            In c [0; 1; 2; 3; 4; 5; 6; 7; 8; 23].
Proof.
  unfold IcomMode.setModeCmd.
  destruct (read IcomMode.ICOM_MODES_REV (units mode)) as [[c|]|m|] eqn:E1.
  - intros [= <-]. exists c. split; [ reflexivity | ].
    exact (icom_mode_code _ _ E1).
  - intros [= <-]. exists 0. split; [ reflexivity | simpl; auto ].
  - intros [= <-]. exists 0. split; [ reflexivity | simpl; auto ].
  - destruct (read IcomMode.ICOM_MODES_REV (toUpperCase mode))
      as [[c|]|m|] eqn:E2.
    + intros [= <-]. exists c. split; [ reflexivity | ].
      exact (icom_mode_code _ _ E2).
    + intros [= <-]. exists 0. split; [ reflexivity | simpl; auto ].
    + intros [= <-]. exists 0. split; [ reflexivity | simpl; auto ].
    + discriminate.
Qed.

(** X5. The Icom decoder never takes a command of the bridge for a report of
    the radio: every frame the Icom codec builds (the three poll commands,
    set-frequency for a frequency that is not negative, set-PTT, set-mode)
    is dropped without a report and without a trace in the buffer when it
    comes back on the bus, as long as the radio's address is a byte other
    than [0xE0] and [0xFD]. *)
Theorem icom_ignores_own_commands (St : Type) (upd : prop -> value -> St -> St)
    (civAddr hz : Z) (on : bool) (mode : string) (fr : list Z) (s : St) :
  civAddr mod 256 <> 224 -> civAddr mod 256 <> 253 -> 0 <= hz ->
  In fr (IcomProtocol.buildPollCommands civAddr) \/
  fr = IcomProtocol.setFreqCmd civAddr hz \/
  fr = IcomProtocol.setPttCmd civAddr on \/
  IcomMode.setModeCmd civAddr mode = Some fr ->
  IcomProtocol.parseResponse upd (IcomProtocol.Bytes fr) [] s = ([], s).
Proof.
  intros H1 H2 Hz Hfr.
  destruct Hfr as [Hfr | [-> | [-> | Hfr]]].
  - simpl in Hfr. destruct Hfr as [<- | [<- | [<- | []]]];
      apply own_frame_ignored; try assumption;
      simpl; intuition discriminate.
  - apply own_frame_ignored; try assumption.
    pose proof (freqToBcd_is_bcd hz Hz) as Hb.
    unfold Buffer_from. cbn [map]. intros [E | Hin]; [ discriminate E | ].
    apply in_map_iff in Hin. destruct Hin as (b & Eb & Hin).
    rewrite Forall_forall in Hb. specialize (Hb b Hin).
    destruct (is_bcd_bounds b Hb) as (Hr & _ & _ & Hne & _).
    rewrite Z.mod_small in Eb by lia. congruence.
  - apply own_frame_ignored; try assumption.
    destruct on; simpl; intuition discriminate.
  - destruct (icom_mode_frame _ _ _ Hfr) as (c & -> & Hc).
    apply own_frame_ignored; try assumption.
    simpl in Hc.
    repeat (destruct Hc as [<- | Hc]; [ simpl; intuition discriminate | ]).
    contradiction.
Qed.

Lemma icom_ignores_own_commands_witness :
  IcomProtocol.parseResponse record_report
    (IcomProtocol.Bytes (IcomProtocol.setFreqCmd 148 14074000)) [] []
  = ([], []).
Proof.
  apply (icom_ignores_own_commands (list report) record_report
           148 14074000 true "USB"); try (vm_compute; congruence).
  right. left. reflexivity.
Defined.

(** ** Decoders and the store *)

(** Two stores that are updated in step stay related through a decoder, and
    the decoder's buffer does not depend on the store. *)
Section Simulation.
Context {A B : Type} (updA : prop -> value -> A -> A)
        (updB : prop -> value -> B -> B) (R : A -> B -> Prop).
Hypothesis upd_related :
  forall p v a b, R a b -> R (updA p v a) (updB p v b).

Ltac branches :=
  repeat match goal with
         | |- context [match ?x with _ => _ end] => destruct x eqn:?
         end.

Lemma yaesu_handle_related a b cmd :
  R a b -> R (YaesuProtocol.handle updA a cmd) (YaesuProtocol.handle updB b cmd).
Proof. intros H. unfold YaesuProtocol.handle. branches; auto. Qed.

Lemma kenwood_handle_related a b cmd :
  R a b ->
  R (KenwoodProtocol.handle updA a cmd) (KenwoodProtocol.handle updB b cmd).
Proof. intros H. unfold KenwoodProtocol.handle. branches; auto. Qed.

Lemma icom_handle_related frame a b :
  R a b ->
  R (IcomProtocol.handle updA frame a) (IcomProtocol.handle updB frame b).
Proof. intros H. unfold IcomProtocol.handle. branches; auto. Qed.

Lemma fold_related (hA : A -> string -> A) (hB : B -> string -> B) commands :
  (forall a b cmd, R a b -> R (hA a cmd) (hB b cmd)) ->
  forall a b, R a b -> R (fold_left hA commands a) (fold_left hB commands b).
Proof.
  intros Hh. induction commands as [|c cs IH]; intros a b H; simpl; auto.
Qed.

Lemma yaesu_related chunk buffer a b :
  R a b ->
  fst (YaesuProtocol.parseResponse updA chunk buffer a)
  = fst (YaesuProtocol.parseResponse updB chunk buffer b) /\
  R (snd (YaesuProtocol.parseResponse updA chunk buffer a))
    (snd (YaesuProtocol.parseResponse updB chunk buffer b)).
Proof.
  intros H. unfold YaesuProtocol.parseResponse.
  destruct (extract _ _ _) as [commands rest]. cbn [fst snd].
  split; [ reflexivity | ].
  apply fold_related; auto using yaesu_handle_related.
Qed.

Lemma kenwood_related chunk buffer a b :
  R a b ->
  fst (KenwoodProtocol.parseResponse updA chunk buffer a)
  = fst (KenwoodProtocol.parseResponse updB chunk buffer b) /\
  R (snd (KenwoodProtocol.parseResponse updA chunk buffer a))
    (snd (KenwoodProtocol.parseResponse updB chunk buffer b)).
Proof.
  intros H. unfold KenwoodProtocol.parseResponse.
  destruct (extract _ _ _) as [commands rest]. cbn [fst snd].
  split; [ reflexivity | ].
  apply fold_related; auto using kenwood_handle_related.
Qed.

Lemma icom_loop_related fuel : forall buffer a b,
  R a b ->
  fst (IcomProtocol.parse_loop updA fuel buffer a)
  = fst (IcomProtocol.parse_loop updB fuel buffer b) /\
  R (snd (IcomProtocol.parse_loop updA fuel buffer a))
    (snd (IcomProtocol.parse_loop updB fuel buffer b)).
Proof.
  induction fuel as [|k IH]; intros buffer a b H; cbn [IcomProtocol.parse_loop].
  - split; [ reflexivity | exact H ].
  - destruct (buf_indexOf_seq _ _); [ | split; [ reflexivity | exact H ] ].
    destruct (buf_indexOf _ _ _); [ | split; [ reflexivity | exact H ] ].
    apply IH. apply icom_handle_related. exact H.
Qed.

Lemma icom_related chunk buffer a b :
  R a b ->
  fst (IcomProtocol.parseResponse updA chunk buffer a)
  = fst (IcomProtocol.parseResponse updB chunk buffer b) /\
  R (snd (IcomProtocol.parseResponse updA chunk buffer a))
    (snd (IcomProtocol.parseResponse updB chunk buffer b)).
Proof. intros H. apply icom_loop_related. exact H. Qed.
End Simulation.

Lemma replay_snoc {St : Type} (upd : prop -> value -> St -> St) log p v s :
  replay upd (record_report p v log) s = upd p v (replay upd log s).
Proof. unfold replay, record_report. rewrite fold_left_app. reflexivity. Qed.

(** What a decoder does to a store is what its reports, replayed in order,
    do to it. *)
Lemma yaesu_replay {St : Type} (upd : prop -> value -> St -> St) chunk buffer s :
  snd (YaesuProtocol.parseResponse upd chunk buffer s)
  = replay upd (snd (YaesuProtocol.parseResponse record_report chunk buffer [])) s.
Proof.
  apply (yaesu_related upd record_report (fun a log => a = replay upd log s)).
  - intros p v a b ->. symmetry. apply replay_snoc.
  - reflexivity.
Qed.

Lemma kenwood_replay {St : Type} (upd : prop -> value -> St -> St) chunk buffer s :
  snd (KenwoodProtocol.parseResponse upd chunk buffer s)
  = replay upd (snd (KenwoodProtocol.parseResponse record_report chunk buffer [])) s.
Proof.
  apply (kenwood_related upd record_report (fun a log => a = replay upd log s)).
  - intros p v a b ->. symmetry. apply replay_snoc.
  - reflexivity.
Qed.

Lemma icom_replay {St : Type} (upd : prop -> value -> St -> St) chunk buffer s :
  snd (IcomProtocol.parseResponse upd chunk buffer s)
  = replay upd (snd (IcomProtocol.parseResponse record_report chunk buffer [])) s.
Proof.
  apply (icom_related upd record_report (fun a log => a = replay upd log s)).
  - intros p v a b ->. symmetry. apply replay_snoc.
  - reflexivity.
Qed.

(** An invariant of the store survives a decoder as soon as it survives a
    frequency report above zero, a mode report that is a string and a PTT
    report that is a boolean: the decoders make no other call. *)
Section TypedReports.
Context {St : Type} (upd : prop -> value -> St -> St) (I : St -> Prop).
Hypothesis upd_freq : forall n s, 0 < n -> I s -> I (upd Pfreq (VNum n) s).
Hypothesis upd_mode : forall m s, I s -> I (upd Pmode (VStr m) s).
Hypothesis upd_ptt : forall t s, I s -> I (upd Pptt (VBool t) s).

Ltac branches :=
  repeat match goal with
         | |- context [match ?x with _ => _ end] => destruct x eqn:?
         end.

Ltac close :=
  repeat first
    [ assumption
    | apply upd_mode
    | apply upd_ptt
    | apply upd_freq; [ apply Z.ltb_lt; assumption | ] ].

Lemma yaesu_handle_typed s cmd : I s -> I (YaesuProtocol.handle upd s cmd).
Proof. intros Hs. unfold YaesuProtocol.handle. branches; close. Qed.

Lemma kenwood_handle_typed s cmd : I s -> I (KenwoodProtocol.handle upd s cmd).
Proof. intros Hs. unfold KenwoodProtocol.handle. branches; close. Qed.

Lemma icom_handle_typed frame s : I s -> I (IcomProtocol.handle upd frame s).
Proof. intros Hs. unfold IcomProtocol.handle. branches; close. Qed.

Lemma fold_typed (handle : St -> string -> St) commands :
  (forall s cmd, I s -> I (handle s cmd)) ->
  forall s, I s -> I (fold_left handle commands s).
Proof.
  intros Hh. induction commands as [|c cs IH]; intros s Hs; simpl; auto.
Qed.

Lemma yaesu_typed chunk buffer s :
  I s -> I (snd (YaesuProtocol.parseResponse upd chunk buffer s)).
Proof.
  intros Hs. unfold YaesuProtocol.parseResponse.
  destruct (extract _ _ _) as [commands rest]. simpl.
  apply fold_typed; auto using yaesu_handle_typed.
Qed.

Lemma kenwood_typed chunk buffer s :
  I s -> I (snd (KenwoodProtocol.parseResponse upd chunk buffer s)).
Proof.
  intros Hs. unfold KenwoodProtocol.parseResponse.
  destruct (extract _ _ _) as [commands rest]. simpl.
  apply fold_typed; auto using kenwood_handle_typed.
Qed.

Lemma icom_loop_typed fuel : forall buffer s,
  I s -> I (snd (IcomProtocol.parse_loop upd fuel buffer s)).
Proof.
  induction fuel as [|k IH]; intros buffer s Hs; simpl; auto.
  destruct (buf_indexOf_seq _ _); simpl; auto.
  destruct (buf_indexOf _ _ _); simpl; auto.
  apply IH. apply icom_handle_typed. exact Hs.
Qed.

Lemma icom_typed chunk buffer s :
  I s -> I (snd (IcomProtocol.parseResponse upd chunk buffer s)).
Proof. intros Hs. apply icom_loop_typed. exact Hs. Qed.
End TypedReports.

Lemma decoded_from_refl w : decoded_from w w.
Proof. unfold decoded_from. auto 6. Qed.

Lemma decoded_from_update w0 w p v :
  (p = Pfreq /\ exists n, v = VNum n) \/
  (p = Pmode /\ exists m, v = VStr m) \/
  (p = Pptt /\ exists t, v = VBool t) ->
  decoded_from w0 w -> decoded_from w0 (updateState p v w).
Proof.
  intros Hp (Hc & Hw & Hn & Hl & Ht). unfold updateState.
  destruct (strict_eq (get p (state w)) v); [ unfold decoded_from; auto 6 | ].
  unfold decoded_from, well_typed.
  destruct Hp as [[-> [n ->]] | [[-> [m ->]] | [-> [t ->]]]]; cbn;
    (split; [ exact Hc | split; [ exact Hw | split; [ exact Hn | split ] ] ]);
    try (right; rewrite Hn; reflexivity);
    intros H0; destruct (Ht H0) as (Hf & Hm & Hq); eauto.
Qed.

(** X6. No decoder touches what is not its business: whatever bytes the
    Yaesu, the Kenwood or the Icom decoder is fed, [connected] and [width]
    of the store stay as they were, [lastUpdate] is the old time stamp or
    the present clock, and a store whose frequency is a number, whose mode is
    a string and whose PTT state is a boolean stays such a store. *)
Theorem decoders_keep_to_their_fields :
  (forall chunk buffer w,
     decoded_from w
       (snd (YaesuProtocol.parseResponse updateState chunk buffer w))) /\
  (forall chunk buffer w,
     decoded_from w
       (snd (KenwoodProtocol.parseResponse updateState chunk buffer w))) /\
  (forall chunk buffer w,
     decoded_from w
       (snd (IcomProtocol.parseResponse updateState chunk buffer w))).
Proof.
  split; [ | split ]; intros chunk buffer w;
    [ apply yaesu_typed | apply kenwood_typed | apply icom_typed ];
    try apply decoded_from_refl;
    intros; apply decoded_from_update; eauto 6.
Qed.

(** ** What the subscribers get *)

Lemma broadcast_deliver m cs :
  broadcast m cs = map (deliver [m]) (filter writable cs).
Proof. reflexivity. Qed.

Lemma filter_writable_deliver ms cs :
  filter writable (map (deliver ms) cs) = map (deliver ms) (filter writable cs).
Proof.
  induction cs as [|c cs IH]; simpl; [ reflexivity | ].
  destruct (writable c); simpl; rewrite IH; reflexivity.
Qed.

Lemma filter_writable_twice cs :
  filter writable (filter writable cs) = filter writable cs.
Proof.
  induction cs as [|c cs IH]; simpl; [ reflexivity | ].
  destruct (writable c) eqn:E; simpl; rewrite ?E, IH; reflexivity.
Qed.

Lemma deliver_deliver ms1 ms2 cs :
  map (deliver ms2) (map (deliver ms1) cs) = map (deliver (ms1 ++ ms2)) cs.
Proof.
  rewrite map_map. apply map_ext. intros c. unfold deliver. simpl.
  rewrite <- app_assoc. reflexivity.
Qed.

Lemma replay_cons {St : Type} (upd : prop -> value -> St -> St) p v rest s :
  replay upd ((p, v) :: rest) s = replay upd rest (upd p v s).
Proof. reflexivity. Qed.

Lemma replay_updateState reports : forall w,
  now (replay updateState reports w) = now w /\
  sseClients (replay updateState reports w)
  = match changes (now w) (state w) reports with
    | [] => sseClients w
    | ms => map (deliver ms) (filter writable (sseClients w))
    end.
Proof.
  induction reports as [|[p v] rest IH]; intros w.
  - split; reflexivity.
  - rewrite replay_cons. cbn [changes].
    destruct (IH (updateState p v w)) as [Hn Hc]. revert Hn Hc.
    unfold updateState.
    destruct (strict_eq (get p (state w)) v); [ intros; split; assumption | ].
    cbn [now state sseClients]. intros Hn Hc.
    split; [ exact Hn | ]. rewrite Hc.
    destruct (changes (now w) _ rest) as [|m ms]; [ reflexivity | ].
    rewrite broadcast_deliver, filter_writable_deliver, filter_writable_twice.
    rewrite deliver_deliver. reflexivity.
Qed.

Lemma changes_are_updates clock reports : forall st,
  forallb is_update (changes clock st reports) = true /\
  (List.length (changes clock st reports) <= List.length reports)%nat.
Proof.
  induction reports as [|[p v] rest IH]; intros st; cbn [changes].
  - split; [ reflexivity | simpl; lia ].
  - destruct (strict_eq (get p st) v).
    + destruct (IH st). split; [ assumption | simpl; apply le_S; assumption ].
    + destruct (IH (set PlastUpdate (VNum clock) (set p v st))).
      split; [ simpl; assumption | simpl; apply le_n_S; assumption ].
Qed.

Lemma subscribers_after_replay reports w :
  let msgs := changes (now w) (state w) reports in
  sseClients (replay updateState reports w)
  = match msgs with
    | [] => sseClients w
    | _ => map (deliver msgs) (filter writable (sseClients w))
    end /\
  forallb is_update msgs = true /\
  (List.length msgs <= List.length reports)%nat.
Proof.
  cbv zeta. split; [ | apply changes_are_updates ].
  destruct (replay_updateState reports w) as [_ H]. rewrite H.
  destruct (changes (now w) (state w) reports); reflexivity.
Qed.

(** X7. All subscribers see the same thing.  When a decoder has read a
    chunk, the list [msgs] of [update] messages, one for each of its reports
    that differed from the store at its turn and in the order of the
    reports, has been written to every client that accepts writes, after
    what that client had received before; the clients keep their order.  A
    client whose write throws is dropped when [msgs] is not empty, and
    nothing at all happens to the list of clients when it is. *)
Theorem subscribers_share_the_updates :
  (forall chunk buffer w,
     let reports :=
       snd (YaesuProtocol.parseResponse record_report chunk buffer []) in
     let msgs := changes (now w) (state w) reports in
     sseClients (snd (YaesuProtocol.parseResponse updateState chunk buffer w))
     = match msgs with
       | [] => sseClients w
       | _ => map (deliver msgs) (filter writable (sseClients w))
       end /\
     forallb is_update msgs = true /\
     (List.length msgs <= List.length reports)%nat) /\
  (forall chunk buffer w,
     let reports :=
       snd (KenwoodProtocol.parseResponse record_report chunk buffer []) in
     let msgs := changes (now w) (state w) reports in
     sseClients (snd (KenwoodProtocol.parseResponse updateState chunk buffer w))
     = match msgs with
       | [] => sseClients w
       | _ => map (deliver msgs) (filter writable (sseClients w))
       end /\
     forallb is_update msgs = true /\
     (List.length msgs <= List.length reports)%nat) /\
  (forall chunk buffer w,
     let reports :=
       snd (IcomProtocol.parseResponse record_report chunk buffer []) in
     let msgs := changes (now w) (state w) reports in
     sseClients (snd (IcomProtocol.parseResponse updateState chunk buffer w))
     = match msgs with
       | [] => sseClients w
       | _ => map (deliver msgs) (filter writable (sseClients w))
       end /\
     forallb is_update msgs = true /\
     (List.length msgs <= List.length reports)%nat).
Proof.
  split; [ | split ]; intros chunk buffer w.
  - rewrite (yaesu_replay updateState chunk buffer w).
    apply subscribers_after_replay.
  - rewrite (kenwood_replay updateState chunk buffer w).
    apply subscribers_after_replay.
  - rewrite (icom_replay updateState chunk buffer w).
    apply subscribers_after_replay.
Qed.

(** ** The push stream *)

Lemma follows_protocol_deliver ms c :
  forallb is_update ms = true ->
  follows_protocol c = true -> follows_protocol (deliver ms c) = true.
Proof.
  intros Hms. unfold follows_protocol, deliver. cbn [received].
  destruct (received c) as [|[ | ] rest]; try discriminate.
  cbn [app]. intros H. rewrite forallb_app, H, Hms. reflexivity.
Qed.

Lemma stream_ok_broadcast p v cs :
  Forall (fun c => follows_protocol c = true) cs ->
  Forall (fun c => follows_protocol c = true) (broadcast (Update p v) cs).
Proof.
  rewrite broadcast_deliver. induction 1 as [|c cs Hc _ IH]; simpl.
  - constructor.
  - destruct (writable c); [ | exact IH ].
    simpl. constructor; [ | exact IH ].
    apply follows_protocol_deliver; [ reflexivity | exact Hc ].
Qed.

Lemma stream_ok_same w w' :
  sseClients w' = sseClients w -> stream_ok w -> stream_ok w'.
Proof. unfold stream_ok. intros ->. auto. Qed.

Lemma stream_ok_updateState p v w :
  stream_ok w -> stream_ok (updateState p v w).
Proof.
  intros H. unfold updateState.
  destruct (strict_eq _ _); [ exact H | ].
  apply stream_ok_broadcast. exact H.
Qed.

Lemma stream_ok_mark_connected v w :
  stream_ok w -> stream_ok (mark_connected v w).
Proof. intros H. apply stream_ok_broadcast. exact H. Qed.

Lemma stream_ok_get_stream id ok w :
  stream_ok w -> stream_ok (get_stream id ok w).
Proof.
  intros H. unfold stream_ok, get_stream. cbn [sseClients].
  apply Forall_app. split; [ exact H | ].
  constructor; [ reflexivity | constructor ].
Qed.

Lemma stream_ok_initSerial cfg b :
  stream_ok (world b) -> stream_ok (world (initSerial cfg b)).
Proof. intros H. unfold initSerial. destruct (brand cfg); exact H. Qed.

Lemma stream_ok_step b e :
  stream_ok (world b) -> stream_ok (world (step b e)).
Proof.
  intros H. destruct e; cbn [step].
  - apply stream_ok_mark_connected. exact H.
  - exact H.
  - apply stream_ok_mark_connected. exact H.
  - apply stream_ok_mark_connected. exact H.
  - unfold fire_timeout. destruct (timeouts b) as [|[d []] rest]; [ exact H | ].
    apply stream_ok_initSerial. exact H.
  - unfold poll_tick. destruct (serialPort b) as [p|]; [ | exact H ].
    destruct (isOpen p); exact H.
Qed.

Lemma stream_ok_run es : forall b,
  stream_ok (world b) -> stream_ok (world (run b es)).
Proof.
  induction es as [|e es IH]; intros b H; [ exact H | ].
  apply (IH (step b e)). apply stream_ok_step. exact H.
Qed.

(** X8. Every subscriber of the push stream gets one [init] snapshot first
    and [update] messages after it, whatever happens: if that holds of all
    clients of a bridge, it still holds when another client subscribes,
    after any call of [updateState], after any of the three decoders has
    read any chunk, and after any sequence of serial events (open, failed
    open, error, close, a reconnect falling due, poll ticks).  It holds of
    a bridge without clients. *)
Theorem stream_sends_init_then_updates (b : Bridge) :
  stream_ok (world b) ->
  (forall id ok, stream_ok (get_stream id ok (world b))) /\
  (forall p v, stream_ok (updateState p v (world b))) /\
  (forall chunk buffer,
     stream_ok (snd (YaesuProtocol.parseResponse updateState chunk buffer
                       (world b)))) /\
  (forall chunk buffer,
     stream_ok (snd (KenwoodProtocol.parseResponse updateState chunk buffer
                       (world b)))) /\
  (forall chunk buffer,
     stream_ok (snd (IcomProtocol.parseResponse updateState chunk buffer
                       (world b)))) /\
  (forall es, stream_ok (world (run b es))) /\
  (forall st clock, stream_ok (mkWorld st [] clock)).
Proof.
  intros H. repeat split.
  - intros. apply stream_ok_get_stream. exact H.
  - intros. apply stream_ok_updateState. exact H.
  - intros. apply yaesu_typed; auto using stream_ok_updateState.
  - intros. apply kenwood_typed; auto using stream_ok_updateState.
  - intros. apply icom_typed; auto using stream_ok_updateState.
  - intros. apply stream_ok_run. exact H.
  - intros. constructor.
Qed.

Lemma stream_sends_init_then_updates_witness :
  stream_ok
    (snd (YaesuProtocol.parseResponse updateState "FA014074000;MD03;" ""
            (world subscribed_bridge))).
Proof.
  assert (H : stream_ok (world subscribed_bridge)).
  { constructor; [ reflexivity | constructor ]. }
  apply (stream_sends_init_then_updates subscribed_bridge H).
Defined.

(** ** Mode labels *)

Lemma units_eqb_eq a : forall b, units_eqb a b = true -> a = b.
Proof.
  induction a as [|x a IH]; intros [|y b]; simpl; try discriminate; auto.
  intros H. apply andb_true_iff in H. destruct H as [Hx Hab].
  apply Z.eqb_eq in Hx. subst. f_equal. auto.
Qed.

Lemma read_own_key {V : Type} (entries : list (string * V)) key v :
  read entries key = Own v -> exists k, In (k, v) entries /\ units k = key.
Proof.
  unfold read.
  destruct (find _ (rev entries)) as [[k v']|] eqn:E.
  - intros [= <-]. apply find_some in E. destruct E as [E1 E2].
    exists k. split; [ apply in_rev; exact E1 | ].
    apply units_eqb_eq. exact E2.
  - destruct (find _ Object_prototype_members); discriminate.
Qed.

Lemma read_inherited {V : Type} (entries : list (string * V)) key m :
  read entries key = Inherited m ->
  In key (map units Object_prototype_members).
Proof.
  unfold read.
  destruct (find _ (rev entries)); [ discriminate | ].
  destruct (find _ Object_prototype_members) as [m'|] eqn:E; [ | discriminate ].
  intros _. apply find_some in E. destruct E as [E1 E2].
  apply units_eqb_eq in E2. subst key. apply in_map. exact E1.
Qed.

Lemma read_own_upper {V : Type} (entries : list (string * V)) mode v :
  upper_keys entries ->
  read entries (units mode) = Own v -> toUpperCase mode = units mode.
Proof.
  intros Hup E. destruct (read_own_key _ _ _ E) as (k & Hin & Hk).
  unfold toUpperCase. rewrite <- Hk. exact (Hup k v Hin).
Qed.

Lemma text_mode_own prefix REV mode cmd :
  text_setModeCmd prefix REV mode = ModeCmd cmd ->
  exists k code, In (k, code) REV /\ cmd = (prefix ++ code ++ ";")%string /\
                 (units k = units mode \/ units k = toUpperCase mode).
Proof.
  unfold text_setModeCmd.
  destruct (read REV (units mode)) as [c|m|] eqn:E1.
  - destruct (truthy_code (Own c)) eqn:T.
    + rewrite T. intros [= <-].
      destruct (read_own_key _ _ _ E1) as (k & Hin & Hk). eauto 6.
    + destruct (read REV (toUpperCase mode)) as [c2|m2|] eqn:E2;
        try discriminate.
      destruct (truthy_code (Own c2)); [ | discriminate ].
      intros [= <-].
      destruct (read_own_key _ _ _ E2) as (k & Hin & Hk). eauto 6.
  - cbn [truthy_code]. discriminate.
  - cbn [truthy_code].
    destruct (read REV (toUpperCase mode)) as [c2|m2|] eqn:E2;
      try discriminate.
    destruct (truthy_code (Own c2)); [ | discriminate ].
    intros [= <-].
    destruct (read_own_key _ _ _ E2) as (k & Hin & Hk). eauto 6.
Qed.

Lemma text_mode_upper prefix REV mode :
  upper_keys REV ->
  ~ In (units mode) (map units Object_prototype_members) ->
  text_setModeCmd prefix REV mode
  = match read REV (toUpperCase mode) with
    | Own EmptyString => NoModeCmd
    | Own c => ModeCmd (prefix ++ c ++ ";")
    | Inherited m => ModeCmdOf m
    | Missing => NoModeCmd
    end.
Proof.
  intros Hup Hm. unfold text_setModeCmd.
  destruct (read REV (units mode)) as [c|m|] eqn:E1.
  - rewrite (read_own_upper REV mode c Hup E1), E1.
    destruct c; reflexivity.
  - elim Hm. exact (read_inherited _ _ _ E1).
  - cbn [truthy_code].
    destruct (read REV (toUpperCase mode)) as [[|a c]|m|]; reflexivity.
Qed.

Lemma icom_mode_upper civAddr mode :
  ~ In (units mode) (map units Object_prototype_members) ->
  IcomMode.setModeCmd civAddr mode
  = match read IcomMode.ICOM_MODES_REV (toUpperCase mode) with
    | Own (Some c) => Some (IcomProtocol._frame civAddr [6; c; 1])
    | Own None => Some (IcomProtocol._frame civAddr [6; 0; 1])
    | Inherited _ => Some (IcomProtocol._frame civAddr [6; 0; 1])
    | Missing => None
    end.
Proof.
  intros Hm. unfold IcomMode.setModeCmd.
  destruct (read IcomMode.ICOM_MODES_REV (units mode)) as [c|m|] eqn:E1.
  - rewrite (read_own_upper IcomMode.ICOM_MODES_REV mode c); [ | | exact E1 ].
    + rewrite E1. reflexivity.
    + intros k v Hin. vm_compute in Hin.
      repeat (destruct Hin as [E | Hin]; [ injection E as <- <-; reflexivity | ]).
      contradiction.
  - elim Hm. exact (read_inherited _ _ _ E1).
  - reflexivity.
Qed.

Lemma yaesu_upper_keys : upper_keys YaesuMode.YAESU_MODES_REV.
Proof.
  intros k v Hin. vm_compute in Hin.
  repeat (destruct Hin as [E | Hin]; [ injection E as <- <-; reflexivity | ]).
  contradiction.
Qed.

Lemma kenwood_upper_keys : upper_keys KenwoodMode.KENWOOD_MODES_REV.
Proof.
  intros k v Hin. vm_compute in Hin.
  repeat (destruct Hin as [E | Hin]; [ injection E as <- <-; reflexivity | ]).
  contradiction.
Qed.

(** X9. The mode is looked up without regard to case.  Two mode strings
    with the same upper-case form, neither of them the name of a member of
    [Object.prototype], get the same answer from [setModeCmd], in each of the
    three dialects: the same command, or none. *)
Theorem setModeCmd_ignores_case (m1 m2 : string) :
  toUpperCase m1 = toUpperCase m2 ->
  ~ In (units m1) (map units Object_prototype_members) ->
  ~ In (units m2) (map units Object_prototype_members) ->
  YaesuMode.setModeCmd m1 = YaesuMode.setModeCmd m2 /\
  KenwoodMode.setModeCmd m1 = KenwoodMode.setModeCmd m2 /\
  (forall civAddr,
     IcomMode.setModeCmd civAddr m1 = IcomMode.setModeCmd civAddr m2).
Proof.
  intros Hu H1 H2. split; [ | split ].
  - unfold YaesuMode.setModeCmd.
    rewrite !(text_mode_upper _ _ _ yaesu_upper_keys) by assumption.
    rewrite Hu. reflexivity.
  - unfold KenwoodMode.setModeCmd.
    rewrite !(text_mode_upper _ _ _ kenwood_upper_keys) by assumption.
    rewrite Hu. reflexivity.
  - intros civAddr. rewrite !icom_mode_upper by assumption.
    rewrite Hu. reflexivity.
Qed.

Lemma setModeCmd_ignores_case_witness :
  YaesuMode.setModeCmd "Cw-r" = YaesuMode.setModeCmd "cW-R" /\
  KenwoodMode.setModeCmd "Cw-r" = KenwoodMode.setModeCmd "cW-R" /\
  (forall civAddr,
     IcomMode.setModeCmd civAddr "Cw-r" = IcomMode.setModeCmd civAddr "cW-R").
Proof.
  apply (setModeCmd_ignores_case "Cw-r" "cW-R").
  - reflexivity.
  - vm_compute. intuition discriminate.
  - vm_compute. intuition discriminate.
Defined.

Lemma upper_unit_no_lower c : no_lower (upper_unit c) = true.
Proof.
  unfold upper_unit, no_lower.
  repeat match goal with
         | |- context [if ?b then _ else _] => destruct b eqn:?
         end;
    cbn [forallb andb negb];
    repeat match goal with
           | |- context [?a <=? ?b] => destruct (Z.leb_spec a b)
           | H : context [?a <=? ?b] |- _ => destruct (Z.leb_spec a b)
           | H : (_ =? _) = true |- _ => apply Z.eqb_eq in H
           end;
    try reflexivity; try discriminate; try lia.
Qed.

Lemma toUpperCase_no_lower mode : no_lower (toUpperCase mode) = true.
Proof.
  unfold toUpperCase. induction (units mode) as [|c u IH]; [ reflexivity | ].
  cbn [flat_map]. pose proof (upper_unit_no_lower c) as Hc.
  unfold no_lower in *. rewrite forallb_app, IH, Hc. reflexivity.
Qed.

Lemma icom_mode_report {St : Type} (upd : prop -> value -> St -> St)
    (from filter c : Z) (label : string) (s : St) :
  In (c, label) IcomProtocol.ICOM_MODES ->
  from <> 253 -> filter <> 253 ->
  IcomProtocol.parseResponse upd
    (IcomProtocol.Bytes [254; 254; 224; from; 4; c; filter; 253]) [] s
  = ([], upd Pmode (VStr label) s).
Proof.
  intros Hin Hfrom Hfilter.
  rewrite icom_parseResponse_bytes. cbn [app].
  change [254; 254; 224; from; 4; c; filter; 253]
    with (254 :: 254 :: [224; from; 4; c; filter] ++ [253]).
  rewrite lone_frame.
  - f_equal. vm_compute in Hin.
    repeat (destruct Hin as [E | Hin]; [ injection E as <- <-; reflexivity | ]).
    contradiction.
  - vm_compute in Hin.
    repeat (destruct Hin as [E | Hin];
            [ injection E as <- <-; simpl; intuition congruence | ]).
    contradiction.
Qed.

(** X10. What [setModeCmd] sends, the decoder of the same dialect reads
    back as the mode that was asked for.  If the Yaesu or the Kenwood encoder
    answers a mode string with a command, the decoder reads that command as
    one mode report whose label is the string itself or its upper-case form.
    The Icom encoder answers a mode string that is no member name of
    [Object.prototype] with the frame [06 c 01], and a mode frame [04 c f]
    that the radio sends with the same code [c] is decoded as that label. *)
Theorem setModeCmd_round_trip (St : Type) (upd : prop -> value -> St -> St)
    (mode : string) (s : St) :
  (forall cmd,
     YaesuMode.setModeCmd mode = ModeCmd cmd ->
     exists label,
       YaesuProtocol.parseResponse upd cmd "" s
       = ("", upd Pmode (VStr label) s) /\
       (units label = units mode \/ units label = toUpperCase mode)) /\
  (forall cmd,
     KenwoodMode.setModeCmd mode = ModeCmd cmd ->
     exists label,
       KenwoodProtocol.parseResponse upd cmd "" s
       = ("", upd Pmode (VStr label) s) /\
       (units label = units mode \/ units label = toUpperCase mode)) /\
  (forall civAddr frame from filter,
     IcomMode.setModeCmd civAddr mode = Some frame ->
     ~ In (units mode) (map units Object_prototype_members) ->
     from <> 253 -> filter <> 253 ->
     exists c label,
       frame = IcomProtocol._frame civAddr [6; c; 1] /\
       IcomProtocol.parseResponse upd
         (IcomProtocol.Bytes [254; 254; 224; from; 4; c; filter; 253]) [] s
       = ([], upd Pmode (VStr label) s) /\
       (units label = units mode \/ units label = toUpperCase mode)).
Proof.
  split; [ | split ].
  - intros cmd H. apply text_mode_own in H.
    destruct H as (k & code & Hin & -> & Hk). vm_compute in Hin.
    repeat (destruct Hin as [E | Hin];
            [ injection E as <- <-;
              match type of Hk with
              | units ?k = _ \/ _ => exists k
              end; split; [ reflexivity | exact Hk ] | ]).
    contradiction.
  - intros cmd H. apply text_mode_own in H.
    destruct H as (k & code & Hin & -> & Hk). vm_compute in Hin.
    repeat (destruct Hin as [E | Hin];
            [ injection E as <- <-;
              match type of Hk with
              | units ?k = _ \/ _ => exists k
              end; split; [ reflexivity | exact Hk ] | ]).
    contradiction.
  - intros civAddr frame from filter H Hm Hfrom Hfilter.
    unfold IcomMode.setModeCmd in H.
    assert (Hkey : exists k c,
               In (k, Some c) IcomMode.ICOM_MODES_REV /\
               frame = IcomProtocol._frame civAddr [6; c; 1] /\
               (units k = units mode \/ units k = toUpperCase mode)).
    { destruct (read IcomMode.ICOM_MODES_REV (units mode)) as [[c|]|m|] eqn:E1.
      - injection H as <-.
        destruct (read_own_key _ _ _ E1) as (k & Hin & Hk). eauto 7.
      - apply read_own_in in E1. vm_compute in E1.
        repeat (destruct E1 as [E | E1]; [ discriminate E | ]). contradiction.
      - elim Hm. exact (read_inherited _ _ _ E1).
      - destruct (read IcomMode.ICOM_MODES_REV (toUpperCase mode))
          as [[c|]|m|] eqn:E2.
        + injection H as <-.
          destruct (read_own_key _ _ _ E2) as (k & Hin & Hk). eauto 7.
        + apply read_own_in in E2. vm_compute in E2.
          repeat (destruct E2 as [E | E2]; [ discriminate E | ]). contradiction.
        + apply read_inherited in E2. exfalso. revert E2.
          generalize (toUpperCase_no_lower mode). generalize (toUpperCase mode).
          intros u Hu Hin. vm_compute in Hin.
          repeat (destruct Hin as [E | Hin];
                  [ subst u; vm_compute in Hu; discriminate Hu | ]).
          contradiction.
        + discriminate H. }
    destruct Hkey as (k & c & Hin & -> & Hk).
    exists c, k. split; [ reflexivity | ]. split; [ | exact Hk ].
    apply icom_mode_report; try assumption.
    vm_compute in Hin. vm_compute.
    repeat (destruct Hin as [E | Hin]; [ injection E as <- <-; tauto | ]).
    contradiction.
Qed.

Lemma setModeCmd_round_trip_witness :
  exists label,
    YaesuProtocol.parseResponse record_report "MD02;" "" []
    = ("", [(Pmode, VStr label)]) /\
    (units label = units "usb" \/ units label = toUpperCase "usb").
Proof.
  apply (proj1 (setModeCmd_round_trip (list report) record_report "usb" [])).
  reflexivity.
Defined.

(** X11. The tables of mode codes are plain objects, so the names of the
    members of [Object.prototype] are taken for modes.  Asked for such a
    name ([constructor], [toString], [valueOf], ...), the Yaesu and the
    Kenwood encoder do not answer [null]: they build a command from the
    inherited member.  The Icom encoder answers with the frame [06 00 01],
    which is its command for LSB. *)
Theorem inherited_names_pass_for_modes (mode : string) :
  In (units mode) (map units Object_prototype_members) ->
  (exists m, In m Object_prototype_members /\
             YaesuMode.setModeCmd mode = ModeCmdOf m) /\
  (exists m, In m Object_prototype_members /\
             KenwoodMode.setModeCmd mode = ModeCmdOf m) /\
  (forall civAddr,
     IcomMode.setModeCmd civAddr mode
     = Some (IcomProtocol._frame civAddr [6; 0; 1]) /\
     IcomMode.setModeCmd civAddr mode = IcomMode.setModeCmd civAddr "LSB").
Proof.
  intros Hin.
  unfold YaesuMode.setModeCmd, KenwoodMode.setModeCmd, IcomMode.setModeCmd,
    text_setModeCmd.
  remember (units mode) as u eqn:Hu. clear Hu. vm_compute in Hin.
  repeat (destruct Hin as [E | Hin];
          [ rewrite <- E; split; [ | split ];
            [ eexists; split; [ | vm_compute; reflexivity ]; simpl; auto 15
            | eexists; split; [ | vm_compute; reflexivity ]; simpl; auto 15
            | intros civAddr; split; reflexivity ] | ]).
  contradiction.
Qed.

Lemma inherited_names_pass_for_modes_witness :
  IcomMode.setModeCmd 148 "toString"
  = Some (IcomProtocol._frame 148 [6; 0; 1]) /\
  IcomMode.setModeCmd 148 "toString" = IcomMode.setModeCmd 148 "LSB".
Proof.
  apply (inherited_names_pass_for_modes "toString").
  vm_compute. tauto.
Defined.

(** ** More on the command handlers *)

Lemma only_wrote_refl b : only_wrote b b.
Proof. unfold only_wrote. auto 10. Qed.

Lemma send_if_truthy_only_wrote cmd b : only_wrote b (send_if_truthy cmd b).
Proof.
  unfold send_if_truthy. destruct cmd as [f|]; [ | apply only_wrote_refl ].
  destruct (frame_truthy (Some f)); [ | apply only_wrote_refl ].
  unfold sendToRadio. destruct (serialPort b) as [p|] eqn:Hp;
    [ | apply only_wrote_refl ].
  destruct (isOpen p) eqn:Ho; [ | apply only_wrote_refl ].
  unfold only_wrote, port_open, writes. cbn. rewrite Hp, Ho.
  repeat split; try reflexivity. right. split; [ reflexivity | ].
  exists f. reflexivity.
Qed.

Lemma send_if_truthy_closed cmd b :
  port_open b = false -> send_if_truthy cmd b = b.
Proof.
  unfold port_open, send_if_truthy, sendToRadio. intros H.
  destruct cmd as [f|]; [ | reflexivity ].
  destruct (frame_truthy (Some f)); [ | reflexivity ].
  destruct (serialPort b) as [p|]; [ | reflexivity ].
  rewrite H. reflexivity.
Qed.

Lemma send_if_truthy_open f p b :
  serialPort b = Some p -> isOpen p = true -> frame_truthy (Some f) = true ->
  send_if_truthy (Some f) b = with_port (Some (port_write f p)) b.
Proof.
  intros Hp Ho Ht. unfold send_if_truthy, sendToRadio.
  rewrite Ht, Hp, Ho. reflexivity.
Qed.

Lemma post_mode_answered setModeCmd body b :
  exists r, post_mode setModeCmd body b = Some r /\
            (r = (b, error 400 "Missing mode") \/
             exists cmd, setModeCmd (member body "mode") = Returned cmd /\
                         r = (send_if_truthy cmd b, success)).
Proof.
  unfold post_mode, parseBody, post_mode_cb.
  destruct (negb (truthy body) || negb (truthy (member body "mode"))).
  - eexists. split; [ reflexivity | left; reflexivity ].
  - destruct (setModeCmd (member body "mode")) as [cmd|].
    + eexists. split; [ reflexivity | right; eauto ].
    + eexists. split; [ reflexivity | left; reflexivity ].
Qed.




(** The three codecs of a radio always have a frequency frame to send. *)
Lemma real_codec_has_freq_frame cfg hz :
  brand cfg <> mock ->
  exists f, setFreqCmd (select_protocol cfg) hz = Some f /\
            frame_truthy (Some f) = true.
Proof.
  intros Hb. unfold select_protocol.
  destruct (brand cfg); try contradiction;
    eexists; split; reflexivity.
Qed.





(** ** More on the serial engine *)

Lemma only_connection_changed_refl w : only_connection_changed w w.
Proof. unfold only_connection_changed. auto 10. Qed.

Lemma only_connection_changed_trans w1 w2 w3 :
  only_connection_changed w1 w2 -> only_connection_changed w2 w3 ->
  only_connection_changed w1 w3.
Proof.
  unfold only_connection_changed.
  intros (A1 & A2 & A3 & A4 & A5 & A6) (B1 & B2 & B3 & B4 & B5 & B6).
  repeat split; congruence.
Qed.

Lemma mark_connected_only v w : only_connection_changed w (mark_connected v w).
Proof. unfold only_connection_changed. repeat split. Qed.

Lemma initSerial_radio cfg b :
  brand cfg <> mock ->
  initSerial cfg b
  = mkBridge (world b) cfg (select_protocol cfg) (Some (mkPort false []))
             (pollTimer b) (timeouts b).
Proof.
  intros Hb. unfold initSerial. destruct (brand cfg); try contradiction;
    reflexivity.
Qed.

Lemma step_radio b e :
  radio_bridge b -> reconnects_only b ->
  radio_bridge (step b e) /\ reconnects_only (step b e) /\
  config (step b e) = config b /\
  only_connection_changed (world b) (world (step b e)).
Proof.
  intros [Hb Hp] Ht. unfold radio_bridge, reconnects_only in *.
  destruct e; cbn [step].
  - repeat split; try assumption.
  - repeat split; try assumption. cbn [on_open_failed setTimeout with_timeouts
      timeouts]. apply Forall_app. split; [ exact Ht | ].
    constructor; [ reflexivity | constructor ].
  - repeat split; assumption.
  - repeat split; try assumption. cbn. apply Forall_app.
    split; [ exact Ht | ]. constructor; [ reflexivity | constructor ].
  - unfold fire_timeout.
    destruct (timeouts b) as [|[d []] rest] eqn:E.
    + rewrite E. repeat split; assumption.
    + unfold reconnect. rewrite initSerial_radio by exact Hb. cbn.
      inversion Ht; subst. repeat split; assumption.
  - unfold poll_tick. destruct (serialPort b) as [p|].
    + destruct (isOpen p); repeat split; assumption.
    + repeat split; assumption.
Qed.

Lemma run_radio es : forall b,
  radio_bridge b -> reconnects_only b ->
  radio_bridge (run b es) /\ reconnects_only (run b es) /\
  config (run b es) = config b /\
  only_connection_changed (world b) (world (run b es)).
Proof.
  induction es as [|e es IH]; intros b Hr Ht.
  - repeat split; try assumption; apply Hr.
  - destruct (step_radio b e Hr Ht) as (Hr1 & Ht1 & Hc1 & Hw1).
    destruct (IH (step b e) Hr1 Ht1) as (Hr2 & Ht2 & Hc2 & Hw2).
    change (run b (e :: es)) with (run (step b e) es).
    split; [ exact Hr2 | split; [ exact Ht2 | split ] ].
    + congruence.
    + exact (only_connection_changed_trans _ _ _ Hw1 Hw2).
Qed.

(** X16. Serial events do not touch what the radio reported.  On the bridge
    of a radio brand, whatever sequence of opens, failed opens, errors,
    closes, reconnects falling due and poll ticks occurs: frequency, mode,
    width, PTT state and the time stamp [lastUpdate] of the store stay as
    they were (only [connected] can change), the configuration is the same
    and the codec is still the one of the configured brand, and every
    pending timeout is a reconnect with the fixed delay of 5000 ms. *)
Theorem serial_events_change_connection_only (b : Bridge)
    (es : list serial_event) :
  radio_bridge b -> reconnects_only b ->
  only_connection_changed (world b) (world (run b es)) /\
  config (run b es) = config b /\
  radio_bridge (run b es) /\
  reconnects_only (run b es).
Proof.
  intros Hr Ht. destruct (run_radio es b Hr Ht) as (H1 & H2 & H3 & H4).
  auto.
Qed.

Lemma serial_events_change_connection_only_witness :
  only_connection_changed (world online_bridge)
    (world (run online_bridge [Closed; TimeoutDue; OpenFailed; TimeoutDue;
                               Opened; PollTick; Errored])).
Proof.
  apply (serial_events_change_connection_only online_bridge
           [Closed; TimeoutDue; OpenFailed; TimeoutDue; Opened; PollTick;
            Errored]).
  - split; [ discriminate | reflexivity ].
  - constructor.
Defined.

(** X17. A report that repeats the last one is silent.  For every field
    but [lastUpdate], a second [updateState] call with the same value changes
    nothing: not the store, not its time stamp, and no client is written
    to. *)
Theorem updateState_twice (p : prop) (v : value) (w : World) :
  p <> PlastUpdate ->
  updateState p v (updateState p v w) = updateState p v w.
Proof.
  intros Hp. unfold updateState at 1.
  rewrite (get_updateState p v w Hp).
  replace (strict_eq v v) with true; [ reflexivity | ].
  symmetry. apply strict_eq_true. reflexivity.
Qed.

Lemma updateState_twice_witness :
  updateState Pfreq (VNum 7100000)
    (updateState Pfreq (VNum 7100000) quiet_world)
  = updateState Pfreq (VNum 7100000) quiet_world.
Proof.
  apply (updateState_twice Pfreq (VNum 7100000) quiet_world).
  discriminate.
Defined.

